(** * Ensemble recentering ([anemoi/datasets/compute/perturbations.py])

    A shallow embedding of [check_compatible] and [perturbations], and the
    properties of the recentering transform [x = c - m + e].

    Numeric grids hold rationals ([Q]): the arithmetic laws are stated in
    exact arithmetic, rounding of the float64 cells is not modelled.
    The collaborators that live outside the repository (field collections,
    GRIB output, temporary files, reopening) are modelled by their
    interface: each call that orders a collection, reads a grid, logs, or
    touches the sink leaves an event in a trace. *)

From Stdlib Require Import QArith Lia.
From stdpp Require Import base tactics option list gmap sets strings.

Open Scope string_scope.
Open Scope list_scope.
Open Scope nat_scope.

(** ** Metadata values *)

(** A metadata or Mars value: [None], an integer or a string. Python's [==]
    on them is structural equality. *)
Inductive value :=
| VNone
| VInt (z : Z)
| VStr (s : string).

#[global] Instance value_eq_dec : EqDecision value.
Proof. solve_decision. Defined.

Definition value_to_sum (v : value) : unit + (Z + string) :=
  match v with
  | VNone => inl tt
  | VInt z => inr (inl z)
  | VStr s => inr (inr s)
  end.

Definition value_of_sum (s : unit + (Z + string)) : value :=
  match s with
  | inl _ => VNone
  | inr (inl z) => VInt z
  | inr (inr s) => VStr s
  end.

#[global] Instance value_countable : Countable value.
Proof.
  apply (inj_countable' value_to_sum value_of_sum).
  intros []; reflexivity.
Defined.

(** ** Numeric grids *)

(** A numpy array: its shape and its cells in row-major order. *)
Record ndarray := NdArray {
  nd_shape : list nat;
  nd_data : list Q;
}.

Definition nd_size (sh : list nat) : nat := foldr Nat.mul 1%nat sh.

(** The arrays numpy can build: as many cells as the shape says. *)
Definition nd_wf (a : ndarray) : Prop :=
  length (nd_data a) = nd_size (nd_shape a).

(** [np.zeros(shape)] *)
Definition nd_zeros (sh : list nat) : ndarray :=
  NdArray sh (replicate (nd_size sh) 0%Q).

(** Elementwise binary operation on two arrays of one shape. *)
Definition nd_zip (f : Q → Q → Q) (a b : ndarray) : ndarray :=
  NdArray (nd_shape a) (zip_with f (nd_data a) (nd_data b)).

Definition nd_add : ndarray → ndarray → ndarray := nd_zip Qplus.
Definition nd_sub : ndarray → ndarray → ndarray := nd_zip Qminus.

Definition Qmaximum (a b : Q) : Q := if Qle_bool a b then b else a.

(** [np.maximum(x, 0)] *)
Definition nd_maximum0 (x : ndarray) : ndarray :=
  NdArray (nd_shape x) ((λ v, Qmaximum v 0) <$> nd_data x).

(** [members_np.mean(axis=0)] for the [(n, *sh)] array whose rows are
    [rows]: the sum of the rows, cell by cell, divided by the number of
    rows. (With no row numpy yields NaN cells; the loop that would use them
    then runs no round.) *)
Definition nd_mean (sh : list nat) (rows : list ndarray) : ndarray :=
  let total := foldl nd_add (nd_zeros sh) rows in
  NdArray sh ((λ v, v / inject_Z (Z.of_nat (length rows)))%Q <$> nd_data total).

(** ** Fields *)

Record Field := {
  mars_grid : value;
  mars_area : value;
  metadata : gmap string value;
  as_mars : gmap string value;
  to_numpy : ndarray;
}.

(** [f.metadata(name)]: [None] for a key the field does not have. *)
Definition get_metadata (f : Field) (name : string) : value :=
  default VNone (metadata f !! name).

(** [f.shape]: the shape [to_numpy] reshapes the values to. *)
Definition shape (f : Field) : list nat := nd_shape (to_numpy f).

Definition field_wf (f : Field) : Prop := nd_wf (to_numpy f).

(** The field the sink stores for [write(x, template=f)]: the template's
    metadata with [x] as numeric payload. *)
Definition with_values (f : Field) (x : ndarray) : Field :=
  {| mars_grid := mars_grid f; mars_area := mars_area f;
     metadata := metadata f; as_mars := as_mars f; to_numpy := x |}.

(** ** Constants of the module *)

Definition CLIP_VARIABLES : list string :=
  ["q"; "cp"; "lsp"; "tp"; "sf"; "swl4"; "swl3"; "swl2"; "swl1"].

Definition SKIP : list string :=
  ["class"; "stream"; "type"; "number"; "expver"; "_leg_number"; "anoffset"].

(** ** Exceptions *)

(** [tuple(sorted(d.items()))] *)
Definition mars_tuple := list (string * value).

(** What an [assert] carries as its message. *)
Inductive assert_info :=
| AGrid (g1 g2 : value)
| AArea (a1 a2 : value)
| AShape (s1 s2 : list nat)
| AValidDatetime (d1 d2 : value)
| AMars (k : string) (v1 v2 : value)
| ANumberUnset
| ADuplicate (t : mars_tuple)
| AShapes3 (e c m : list nat)
| AShapes2 (x e : list nat)
| ASeen (n_seen n_members : nat)
| AReopened (n_ds n_members : nat).

Inductive exn :=
| AssertionError (info : assert_info)
| KeyError (k : string)
| IndexError (i : nat)
| ValueError (n_center n_numbers n_members : nat).

(** ** check_compatible *)

Definition assert_eq `{EqDecision A} (a b : A) (info : assert_info) : option exn :=
  if decide (a = b) then None else Some (AssertionError info).

Notation "c1 'orelse' c2" :=
  (match c1 with Some e => Some e | None => c2 end)
  (at level 65, right associativity, only parsing).

(** The loop over the keys, in the order [ks] in which the set yields them.
    [d[k]] raises [KeyError] for a key the dictionary lacks; the center's
    lookup is evaluated first. *)
Fixpoint check_mars_keys (ks : list string) (cm em : gmap string value) : option exn :=
  match ks with
  | [] => None
  | k :: ks' =>
      if decide (k ∈ SKIP) then check_mars_keys ks' cm em
      else match cm !! k with
           | None => Some (KeyError k)
           | Some v1 =>
               match em !! k with
               | None => Some (KeyError k)
               | Some v2 =>
                   assert_eq v1 v2 (AMars k v1 v2) orelse check_mars_keys ks' cm em
               end
           end
  end.

(** [set(center_field_as_mars.keys()) | set(ensemble_field_as_mars.keys())].
    Python leaves the iteration order of a set open; the model takes the
    enumeration of the finite set. *)
Definition union_keys (cm em : gmap string value) : list string :=
  elements (dom cm ∪ dom em : gset string).

(** [None] when every check passes, otherwise the exception raised. *)
Definition check_compatible (f1 f2 : Field) (cm em : gmap string value) : option exn :=
  assert_eq (mars_grid f1) (mars_grid f2) (AGrid (mars_grid f1) (mars_grid f2)) orelse
  assert_eq (mars_area f1) (mars_area f2) (AArea (mars_area f1) (mars_area f2)) orelse
  assert_eq (shape f1) (shape f2) (AShape (shape f1) (shape f2)) orelse
  assert_eq (get_metadata f1 "valid_datetime") (get_metadata f2 "valid_datetime")
    (AValidDatetime (get_metadata f1 "valid_datetime") (get_metadata f2 "valid_datetime")) orelse
  check_mars_keys (union_keys cm em) cm em.

(** ** Field collections (external collaborator) *)

(** [members.unique_values("number")["number"]]: the distinct values of the
    key over the collection. *)
Definition unique_values (key : string) (l : list Field) : list value :=
  remove_dups (map (λ f, get_metadata f key) l).

Definition value_compare (a b : value) : comparison :=
  match a, b with
  | VNone, VNone => Eq
  | VNone, _ => Lt
  | _, VNone => Gt
  | VInt x, VInt y => Z.compare x y
  | VInt _, VStr _ => Lt
  | VStr _, VInt _ => Gt
  | VStr x, VStr y => String.compare x y
  end.

(** Lexicographic comparison of two fields on the key tuple. *)
Fixpoint keys_compare (keys : list string) (f g : Field) : comparison :=
  match keys with
  | [] => Eq
  | k :: keys' =>
      match value_compare (get_metadata f k) (get_metadata g k) with
      | Eq => keys_compare keys' f g
      | c => c
      end
  end.

Fixpoint insert_ordered (keys : list string) (f : Field) (l : list Field) : list Field :=
  match l with
  | [] => [f]
  | g :: l' =>
      match keys_compare keys f g with
      | Gt => g :: insert_ordered keys f l'
      | _ => f :: l
      end
  end.

(** [l.order_by] with the key tuple [keys]: a new collection, the fields of
    [l] sorted on the keys (a stable sort). *)
Definition order_by (keys : list string) (l : list Field) : list Field :=
  foldr (insert_ordered keys) [] l.

(** [tuple(sorted(d.items()))]: the items sorted on the key (keys of a
    dictionary are distinct, so the values are never compared). *)
Fixpoint insert_item (kv : string * value) (l : mars_tuple) : mars_tuple :=
  match l with
  | [] => [kv]
  | kv' :: l' =>
      if String.leb kv.1 kv'.1 then kv :: l else kv' :: insert_item kv l'
  end.

Definition sorted_items (d : gmap string value) : mars_tuple :=
  foldr insert_item [] (map_to_list d).

(** ** Effects *)

Inductive event :=
| EvLogInfo (msg : string)
| EvLogErrorCounts (n_center n_numbers n_members : nat)
| EvLogErrorMember (f : Field)
| EvLogErrorCenter (f : Field)
| EvOrderBy (l : list Field)
| EvToNumpy (f : Field)
| EvTempFile (path : string)
| EvNewOutput (path : string)
| EvWrite (x : ndarray) (template : Field)
| EvClose
| EvLoadSource (path : string).

(** The events so far, oldest first, and the local set [seen]. *)
Record state := State {
  trace : list event;
  seen : gset mars_tuple;
}.

Definition initial : state := State [] ∅.

Inductive outcome (A : Type) :=
| Return (a : A)
| Raise (e : exn).
Arguments Return {A} a.
Arguments Raise {A} e.

Definition M (A : Type) : Type := state → outcome A * state.

#[global] Instance M_ret : MRet M := λ A a st, (Return a, st).
#[global] Instance M_bind : MBind M := λ A B k m st,
  match m st with
  | (Return a, st') => k a st'
  | (Raise e, st') => (Raise e, st')
  end.

Definition raise {A} (e : exn) : M A := λ st, (Raise e, st).
Definition emit (ev : event) : M unit :=
  λ st, (Return tt, State (trace st ++ [ev]) (seen st)).
Definition get_seen : M (gset mars_tuple) := λ st, (Return (seen st), st).
Definition put_seen (s : gset mars_tuple) : M unit :=
  λ st, (Return tt, State (trace st) s).
Definition get_trace : M (list event) := λ st, (Return (trace st), st).

Definition assert (b : bool) (info : assert_info) : M unit :=
  if b then mret tt else raise (AssertionError info).

(** A pure check lifted into the monad. *)
Definition lift_check (c : option exn) : M unit :=
  match c with
  | None => mret tt
  | Some e => raise e
  end.

(** [for x in l: s = body(x, s)] *)
Fixpoint for_fold {A S} (l : list A) (s : S) (body : A → S → M S) : M S :=
  match l with
  | [] => mret s
  | x :: l' => s' ← body x s; for_fold l' s' body
  end.

Definition for_each {A} (l : list A) (body : A → M unit) : M unit :=
  for_fold l tt (λ x _, body x).

(** [for i, x in enumerate(l): body(i, x)], counting from [i]. *)
Fixpoint for_enum {A} (i : nat) (l : list A) (body : nat → A → M unit) : M unit :=
  match l with
  | [] => mret tt
  | x :: l' => body i x;; for_enum (S i) l' body
  end.

(** [l[i]] *)
Definition get_item {A} (l : list A) (i : nat) : M A :=
  match l !! i with
  | Some x => mret x
  | None => raise (IndexError i)
  end.

(** [f.to_numpy()] *)
Definition read_numpy (f : Field) : M ndarray :=
  emit (EvToNumpy f);; mret (to_numpy f).

(** The [(array, template)] pairs handed to the sink, in order. *)
Definition writes (tr : list event) : list (ndarray * Field) :=
  omap (λ ev, match ev with EvWrite x t => Some (x, t) | _ => None end) tr.

Definition reads (tr : list event) : list Field :=
  omap (λ ev, match ev with EvToNumpy f => Some f | _ => None end) tr.

(** Modelled from the spec: the reopen collaborator [load_source("file", path)]
    returns a field collection over the finalized data, one field for each
    array written, carrying its template's metadata. *)
Definition load_source (path : string) : M (list Field) :=
  emit (EvLoadSource path);;
  tr ← get_trace;
  mret ((λ xt, with_values xt.2 xt.1) <$> writes tr).

(** Modelled from the spec: [assert_is_fieldset] (anemoi.datasets.create.functions)
    verifies that the reopened object is a proper field collection, which
    the reopen collaborator returns. *)
Definition assert_is_fieldset (ds : list Field) : M unit := mret tt.

(** ** perturbations *)

Inductive result :=
| RPath (path : string)
| RDataset (ds : list Field) (tmp : string).

(** [param in clip_variables] *)
Definition value_in (v : value) (l : list string) : bool :=
  match v with
  | VStr s => bool_decide (s ∈ l)
  | _ => false
  end.

Definition keys : list string :=
  ["param"; "level"; "valid_datetime"; "date"; "time"; "step"; "number"].

Section loop.
(** The ordered members, the number of members per block, the clip set. *)
Variable members : list Field.
Variable n_numbers : nat.
Variable clip_variables : list string.

(** Lines 106-114: one round of the loop that loads the block. The row
    [members_np[j]] of the [(n_numbers, *shape)] array takes the cells of
    the member's grid ([check_compatible] has compared the shapes). *)
Definition load_member (i : nat) (center_field : Field) (center_np : ndarray)
    (j : nat) (members_np : list ndarray) : M (list ndarray) :=
  ensemble_field ← get_item members (i * n_numbers + j);
  let ensemble_field_as_mars := as_mars ensemble_field in
  lift_check (check_compatible center_field ensemble_field
                (as_mars center_field) ensemble_field_as_mars);;
  e_np ← read_numpy ensemble_field;
  let members_np := <[j := NdArray (nd_shape center_np) (nd_data e_np)]> members_np in
  let ensemble_field_as_mars := sorted_items ensemble_field_as_mars in
  s ← get_seen;
  assert (bool_decide (ensemble_field_as_mars ∉ s)) (ADuplicate ensemble_field_as_mars);;
  put_seen ({[ensemble_field_as_mars]} ∪ s);;
  mret members_np.

(** Lines 125-142: one round of the loop that writes the block. *)
Definition write_member (i : nat) (param : value) (center_np mean_np : ndarray)
    (members_np : list ndarray) (j : nat) : M unit :=
  template ← get_item members (i * n_numbers + j);
  e ← get_item members_np j;
  let m := mean_np in
  let c := center_np in
  assert (bool_decide (nd_shape e = nd_shape c ∧ nd_shape c = nd_shape m))
    (AShapes3 (nd_shape e) (nd_shape c) (nd_shape m));;
  let x := nd_add (nd_sub c m) e in
  let x := if value_in param clip_variables then nd_maximum0 x else x in
  assert (bool_decide (nd_shape x = nd_shape e)) (AShapes2 (nd_shape x) (nd_shape e));;
  emit (EvWrite x template).

(** Lines 97-142: the body of the loop over the center fields. *)
Definition recenter_block (i : nat) (center_field : Field) : M unit :=
  let param := get_metadata center_field "param" in
  center_np ← read_numpy center_field;
  let members_np := replicate n_numbers (nd_zeros (nd_shape center_np)) in
  members_np ← for_fold (seq 0 n_numbers) members_np (load_member i center_field center_np);
  let mean_np := nd_mean (nd_shape center_np) members_np in
  for_each (seq 0 n_numbers) (write_member i param center_np mean_np members_np).
End loop.

(** Lines 144-160 of [perturbations]: the count of [seen], closing the
    sink, and the value returned. [members] is the ordered collection. *)
Definition finalize (tmp_path path : string) (members : list Field)
    (output : option string) : M result :=
  s ← get_seen;
  assert (bool_decide (size s = length members)) (ASeen (size s) (length members));;
  emit EvClose;;
  match output with
  | Some _ => mret (RPath path)
  | None =>
      ds ← load_source path;
      assert_is_fieldset ds;;
      assert (bool_decide (length ds = length members)) (AReopened (length ds) (length members));;
      mret (RDataset ds tmp_path)
  end.

(** [perturbations(members=..., center=..., clip_variables=..., output=...)];
    [tmp_path] is the path [temp_file()] hands out when it is asked. *)
Definition perturbations (tmp_path : string) (members center : list Field)
    (clip_variables : list string) (output : option string) : M result :=
  let number_list := unique_values "number" members in
  let n_numbers := length number_list in
  assert (bool_decide (VNone ∉ number_list)) ANumberUnset;;
  emit (EvLogInfo "Ordering fields");;
  emit (EvOrderBy members);;
  let members := order_by keys members in
  emit (EvOrderBy center);;
  let center := order_by keys center in
  emit (EvLogInfo "Done");;
  (if bool_decide (length center * n_numbers ≠ length members) then
     emit (EvLogErrorCounts (length center) n_numbers (length members));;
     for_each members (λ f, emit (EvLogErrorMember f));;
     for_each center (λ f, emit (EvLogErrorCenter f));;
     raise (ValueError (length center) n_numbers (length members))
   else mret tt);;
  path ← match output with
         | None => emit (EvTempFile tmp_path);; mret tmp_path
         | Some p => mret p
         end;
  emit (EvNewOutput path);;
  put_seen ∅;;
  for_enum 0 center (recenter_block members n_numbers clip_variables);;
  finalize tmp_path path members output.

(** ** Predicates of the statements *)

(** The canonical key set of a field, as stored in [seen]. *)
Definition canon (f : Field) : mars_tuple := sorted_items (as_mars f).

(** Same grid descriptor, area, shape and valid timestamp. *)
Definition fields_agree (f1 f2 : Field) : Prop :=
  mars_grid f1 = mars_grid f2 ∧ mars_area f1 = mars_area f2 ∧
  shape f1 = shape f2 ∧
  get_metadata f1 "valid_datetime" = get_metadata f2 "valid_datetime".

(** Every key outside [SKIP] is bound alike in the two dictionaries: present
    in both with one value, or absent from both. *)
Definition keys_agree (cm em : gmap string value) : Prop :=
  ∀ k, k ∉ SKIP → cm !! k = em !! k.

(** The weaker condition on the keys the two dictionaries share. *)
Definition shared_keys_agree (cm em : gmap string value) : Prop :=
  ∀ k v1 v2, k ∉ SKIP → cm !! k = Some v1 → em !! k = Some v2 → v1 = v2.

(** The exception [check_compatible] raises, by the check that fails. *)
Inductive violation (f1 f2 : Field) (cm em : gmap string value) : exn → Prop :=
| violation_grid :
    mars_grid f1 ≠ mars_grid f2 →
    violation f1 f2 cm em (AssertionError (AGrid (mars_grid f1) (mars_grid f2)))
| violation_area :
    mars_grid f1 = mars_grid f2 → mars_area f1 ≠ mars_area f2 →
    violation f1 f2 cm em (AssertionError (AArea (mars_area f1) (mars_area f2)))
| violation_shape :
    mars_grid f1 = mars_grid f2 → mars_area f1 = mars_area f2 →
    shape f1 ≠ shape f2 →
    violation f1 f2 cm em (AssertionError (AShape (shape f1) (shape f2)))
| violation_valid_datetime :
    mars_grid f1 = mars_grid f2 → mars_area f1 = mars_area f2 →
    shape f1 = shape f2 →
    get_metadata f1 "valid_datetime" ≠ get_metadata f2 "valid_datetime" →
    violation f1 f2 cm em
      (AssertionError (AValidDatetime (get_metadata f1 "valid_datetime")
                                      (get_metadata f2 "valid_datetime")))
| violation_value k v1 v2 :
    fields_agree f1 f2 → k ∉ SKIP →
    cm !! k = Some v1 → em !! k = Some v2 → v1 ≠ v2 →
    violation f1 f2 cm em (AssertionError (AMars k v1 v2))
| violation_missing k :
    fields_agree f1 f2 → k ∉ SKIP →
    is_Some (cm !! k) ∨ is_Some (em !! k) →
    cm !! k = None ∨ em !! k = None →
    violation f1 f2 cm em (KeyError k).

(** The center field and an ensemble field pass [check_compatible]. *)
Definition compatible (c e : Field) : Prop :=
  check_compatible c e (as_mars c) (as_mars e) = None.

(** What the run has logged and asked of the collections once both are
    ordered (lines 71-74). *)
Definition ordering_trace (members center : list Field) : list event :=
  [EvLogInfo "Ordering fields"; EvOrderBy members; EvOrderBy center; EvLogInfo "Done"].

(** [x = c - m + e], clipped at zero when the parameter is in the clip set
    (lines 133-137). *)
Definition recenter (clip_variables : list string) (param : value)
    (c m e : ndarray) : ndarray :=
  let x := nd_add (nd_sub c m) e in
  if value_in param clip_variables then nd_maximum0 x else x.

(** The ensemble block of the [i]-th center field:
    [members[i * n_numbers : (i + 1) * n_numbers]]. *)
Definition block (members : list Field) (n_numbers i : nat) : list Field :=
  take n_numbers (drop (i * n_numbers) members).

(** The row of [members_np] that holds the grid of ensemble field [e]. *)
Definition block_row (c e : Field) : ndarray :=
  NdArray (shape c) (nd_data (to_numpy e)).

(** [members_np] and [mean_np] once the block [es] of center field [c] is
    loaded. *)
Definition block_rows (c : Field) (es : list Field) : list ndarray :=
  block_row c <$> es.

Definition block_mean (c : Field) (es : list Field) : ndarray :=
  nd_mean (shape c) (block_rows c es).

(** What the sink receives for the block [es] of center field [c]. *)
Definition block_writes (clip_variables : list string) (c : Field)
    (es : list Field) : list (ndarray * Field) :=
  (λ e, (recenter clip_variables (get_metadata c "param") (to_numpy c)
           (block_mean c es) (block_row c e), e)) <$> es.

(** What the sink receives for the center fields [cs], the first of which is
    at position [i]. *)
Fixpoint all_writes (clip_variables : list string) (members : list Field)
    (n_numbers i : nat) (cs : list Field) : list (ndarray * Field) :=
  match cs with
  | [] => []
  | c :: cs' =>
      block_writes clip_variables c (block members n_numbers i) ++
      all_writes clip_variables members n_numbers (S i) cs'
  end.

(** Hoare triples for the monad: from a state satisfying [P], the
    computation either returns [a] in a state satisfying [Q a], or raises
    [e] in a state satisfying [E e]. *)
Definition hoare {A} (P : state → Prop) (m : M A)
    (Q : A → state → Prop) (E : exn → state → Prop) : Prop :=
  ∀ st, P st →
    match m st with
    | (Return a, st') => Q a st'
    | (Raise e, st') => E e st'
    end.

(** The ordered members at the positions below [bound] pass
    [check_compatible] against the center field of their block. *)
Definition blocks_compatible (ms cs : list Field) (n_numbers bound : nat) : Prop :=
  ∀ p e c, p < bound → ms !! p = Some e → cs !! (p / n_numbers) = Some c →
           compatible c e.

Definition blocks_compatibleb (ms cs : list Field) (n_numbers bound : nat) : bool :=
  forallb (λ p, match ms !! p, cs !! (p / n_numbers) with
                | Some e, Some c =>
                    match check_compatible c e (as_mars c) (as_mars e) with
                    | None => true
                    | Some _ => false
                    end
                | _, _ => true
                end) (seq 0 bound).

(** The inputs [perturbations] accepts: no unset member number, as many
    members as [len(center) * n_numbers], no ensemble field twice, and every
    ensemble field compatible with the center field of its block. *)
Definition valid_input (members center : list Field) : Prop :=
  let n_numbers := length (unique_values "number" members) in
  let ms := order_by keys members in
  let cs := order_by keys center in
  (VNone ∉ unique_values "number" members) ∧
  length members = length center * n_numbers ∧
  NoDup (canon <$> members) ∧
  blocks_compatible ms cs n_numbers (length ms).

(** The state in which the loop over the center fields starts. *)
Definition loop_start (tmp_path : string) (members center : list Field)
    (output : option string) : state :=
  State (ordering_trace members center ++
         match output with
         | None => [EvTempFile tmp_path; EvNewOutput tmp_path]
         | Some p => [EvNewOutput p]
         end) ∅.

(** The cell at flat position [k] of an array. *)
Definition cell (a : ndarray) (k : nat) : Q := default 0%Q (nd_data a !! k).

(** The arithmetic mean of a list of rationals. *)
Definition Qsum (l : list Q) : Q := foldl Qplus 0%Q l.

Definition Qmean (l : list Q) : Q :=
  (Qsum l / inject_Z (Z.of_nat (length l)))%Q.

(** The mean at gridpoint [k] over the grids of the fields [es]. *)
Definition ensemble_mean (es : list Field) (k : nat) : Q :=
  Qmean ((λ e, cell (to_numpy e) k) <$> es).

(** The exceptions other than the failure of the assertion of line 144. *)
Definition not_seen_count (err : exn) : Prop :=
  match err with
  | AssertionError (ASeen _ _) => False
  | _ => True
  end.

(** The condition of the specification on the Mars keys: only the keys the
    two dictionaries share are compared. *)
Definition claimed_compatible (f1 f2 : Field) (cm em : gmap string value) : Prop :=
  fields_agree f1 f2 ∧ shared_keys_agree cm em.

(** A checker for [valid_input]. *)
Definition valid_inputb (members center : list Field) : bool :=
  let n_numbers := length (unique_values "number" members) in
  let ms := order_by keys members in
  let cs := order_by keys center in
  bool_decide (VNone ∉ unique_values "number" members) &&
  bool_decide (length members = length center * n_numbers) &&
  bool_decide (NoDup (canon <$> members)) &&
  blocks_compatibleb ms cs n_numbers (length ms).

(** ** Sample data *)

(** A field on a two-point grid; a center field has no member number. *)
Definition sample_field (param : string) (level : Z) (number : option Z)
    (data : list Q) : Field :=
  let mars : gmap string value :=
    {[ "param" := VStr param; "levelist" := VInt level ]} in
  {| mars_grid := VStr "O96";
     mars_area := VNone;
     metadata := {[ "param" := VStr param; "level" := VInt level;
                    "number" := from_option VInt VNone number;
                    "valid_datetime" := VStr "2020-01-01T00:00:00" ]};
     as_mars := match number with
                | Some z => <["number" := VInt z]> mars
                | None => mars
                end;
     to_numpy := NdArray [length data] data |}.

(** One center field and its block of two members, given out of order. *)
Definition sample_center (param : string) : list Field :=
  [sample_field param 500 None [0; 0]%Q].

Definition sample_members (param : string) : list Field :=
  [sample_field param 500 (Some 2%Z) [3; -4]%Q;
   sample_field param 500 (Some 1%Z) [1; 2]%Q].

(** ** The trace of the loop *)

Definition write_event (xt : ndarray * Field) : event := EvWrite xt.1 xt.2.

(** The events of one round of the loop over the center fields: the grid of
    the center field is read, then the grids of its block, then the block is
    written. *)
Definition block_trace (clip_variables : list string) (c : Field)
    (es : list Field) : list event :=
  EvToNumpy c :: (EvToNumpy <$> es) ++
  (write_event <$> block_writes clip_variables c es).

Fixpoint loop_trace (clip_variables : list string) (members : list Field)
    (n_numbers i : nat) (cs : list Field) : list event :=
  match cs with
  | [] => []
  | c :: cs' =>
      block_trace clip_variables c (block members n_numbers i) ++
      loop_trace clip_variables members n_numbers (S i) cs'
  end.

(** The exception lines 107-113 raise for an ensemble field [e] that is
    rejected against the center field [c]: the one of [check_compatible], or
    else the duplicate assertion. *)
Definition member_error (c e : Field) : exn :=
  match check_compatible c e (as_mars c) (as_mars e) with
  | Some err => err
  | None => AssertionError (ADuplicate (canon e))
  end.

(** The grid of a rejected field is read only when the field has passed
    [check_compatible] (line 110 comes after line 109, before line 113). *)
Definition rejected_read (c e : Field) : list event :=
  match check_compatible c e (as_mars c) (as_mars e) with
  | Some _ => []
  | None => [EvToNumpy e]
  end.

(** The ordered member at position [q] is rejected: it fails
    [check_compatible] against the center field of its block, or its key set
    repeats the key set of an earlier member. *)
Definition rejected_at (ms cs : list Field) (n_numbers q : nat) : Prop :=
  ∃ e c, ms !! q = Some e ∧ cs !! (q / n_numbers) = Some c ∧
         (check_compatible c e (as_mars c) (as_mars e) ≠ None ∨
          canon e ∈ canon <$> take q ms).

(** The events of the run that stops at position [q]: the blocks before the
    block of [q], then the reads of the block of [q] up to the rejection. *)
Definition stopped_trace (clip_variables : list string) (ms cs : list Field)
    (n_numbers q : nat) (c e : Field) : list event :=
  loop_trace clip_variables ms n_numbers 0 (take (q / n_numbers) cs) ++
  EvToNumpy c ::
  (EvToNumpy <$> take (q - q / n_numbers * n_numbers) (block ms n_numbers (q / n_numbers))) ++
  rejected_read c e.

(** The events of [finalize]. *)
Definition finalize_trace (tmp_path : string) (output : option string) : list event :=
  match output with
  | Some _ => [EvClose]
  | None => [EvClose; EvLoadSource tmp_path]
  end.

(** The members at the positions below [k] are accepted: compatible with the
    center field of their block, with distinct key sets. *)
Definition accepted_upto (ms cs : list Field) (n_numbers k : nat) : Prop :=
  blocks_compatible ms cs n_numbers k ∧ NoDup (canon <$> take k ms).

(** The four ways a run of [perturbations] ends, with the trace it leaves. *)
Inductive run_case (tmp : string) (members center : list Field)
    (clip_variables : list string) (output : option string) :
    outcome result → list event → Prop :=
| run_unset_number :
    VNone ∈ unique_values "number" members →
    run_case tmp members center clip_variables output
      (Raise (AssertionError ANumberUnset)) []
| run_count_mismatch :
    VNone ∉ unique_values "number" members →
    length center * length (unique_values "number" members) ≠ length members →
    run_case tmp members center clip_variables output
      (Raise (ValueError (length center) (length (unique_values "number" members))
                (length members)))
      (ordering_trace members center ++
       EvLogErrorCounts (length center) (length (unique_values "number" members))
         (length members) ::
       map EvLogErrorMember (order_by keys members) ++
       map EvLogErrorCenter (order_by keys center))
| run_rejected q e c :
    VNone ∉ unique_values "number" members →
    length center * length (unique_values "number" members) = length members →
    accepted_upto (order_by keys members) (order_by keys center)
      (length (unique_values "number" members)) q →
    order_by keys members !! q = Some e →
    order_by keys center !! (q / length (unique_values "number" members)) = Some c →
    (check_compatible c e (as_mars c) (as_mars e) ≠ None ∨
     canon e ∈ canon <$> take q (order_by keys members)) →
    run_case tmp members center clip_variables output
      (Raise (member_error c e))
      (trace (loop_start tmp members center output) ++
       stopped_trace clip_variables (order_by keys members) (order_by keys center)
         (length (unique_values "number" members)) q c e)
| run_returns :
    valid_input members center →
    run_case tmp members center clip_variables output
      (Return match output with
              | Some p => RPath p
              | None => RDataset ((λ xt, with_values xt.2 xt.1) <$>
                                    all_writes clip_variables (order_by keys members)
                                      (length (unique_values "number" members)) 0
                                      (order_by keys center)) tmp
              end)
      (trace (loop_start tmp members center output) ++
       loop_trace clip_variables (order_by keys members)
         (length (unique_values "number" members)) 0 (order_by keys center) ++
       finalize_trace tmp output).

(** The events of the loop over the center fields: grids read, arrays
    written. *)
Definition grid_event (ev : event) : Prop :=
  match ev with
  | EvToNumpy _ | EvWrite _ _ => True
  | _ => False
  end.



(** * Properties *)

(** ** check_compatible *)

Lemma assert_eq_None `{EqDecision A} (a b : A) info :
  assert_eq a b info = None ↔ a = b.
Proof. unfold assert_eq. case_decide; split; intros; congruence. Qed.

Lemma check_mars_keys_None ks cm em :
  check_mars_keys ks cm em = None ↔
  ∀ k, k ∈ ks → k ∉ SKIP → ∃ v, cm !! k = Some v ∧ em !! k = Some v.
Proof.
  induction ks as [|k ks IH]; simpl.
  - split; [intros _ k Hk; inversion Hk | done].
  - case_decide as Hskip.
    + rewrite IH. split.
      * intros H k' Hk' Hn. apply elem_of_cons in Hk' as [->|Hk']; [done | eauto].
      * intros H k' Hk' Hn. apply H; [by right | done].
    + destruct (cm !! k) as [v1|] eqn:Hc.
      2:{ split; [done|]. intros H. destruct (H k) as (v & Hv & _); [by left | done |].
          congruence. }
      destruct (em !! k) as [v2|] eqn:He.
      2:{ split; [done|]. intros H. destruct (H k) as (v & _ & Hv); [by left | done |].
          congruence. }
      unfold assert_eq. case_decide as Hv.
      * subst v2. rewrite IH. split.
        -- intros H k' Hk' Hn. apply elem_of_cons in Hk' as [->|Hk']; eauto.
        -- intros H k' Hk' Hn. apply H; [by right | done].
      * split; [done|]. intros H. destruct (H k) as (v & Hv1 & Hv2); [by left | done |].
        congruence.
Qed.

Lemma check_mars_keys_Some ks cm em err :
  check_mars_keys ks cm em = Some err →
  ∃ k, k ∈ ks ∧ (k ∉ SKIP) ∧
    ((err = KeyError k ∧ (cm !! k = None ∨ em !! k = None)) ∨
     (∃ v1 v2, cm !! k = Some v1 ∧ em !! k = Some v2 ∧ v1 ≠ v2 ∧
               err = AssertionError (AMars k v1 v2))).
Proof.
  induction ks as [|k ks IH]; simpl; [done|].
  case_decide as Hskip.
  { intros H. destruct (IH H) as (k' & Hk' & Hrest). exists k'. split; [by right | done]. }
  destruct (cm !! k) as [v1|] eqn:Hc.
  2:{ intros [= <-]. exists k. split; [by left|]. split; [done|]. left. auto. }
  destruct (em !! k) as [v2|] eqn:He.
  2:{ intros [= <-]. exists k. split; [by left|]. split; [done|]. left. auto. }
  unfold assert_eq. case_decide as Hv.
  - intros H. destruct (IH H) as (k' & Hk' & Hrest). exists k'. split; [by right | done].
  - intros [= <-]. exists k. split; [by left|]. split; [done|]. right. eauto 10.
Qed.

Lemma elem_of_union_keys k cm em :
  k ∈ union_keys cm em ↔ is_Some (cm !! k) ∨ is_Some (em !! k).
Proof.
  unfold union_keys. rewrite elem_of_elements, elem_of_union, !elem_of_dom. done.
Qed.

Lemma keys_agree_alt cm em :
  keys_agree cm em ↔
  ∀ k, k ∈ union_keys cm em → k ∉ SKIP → ∃ v, cm !! k = Some v ∧ em !! k = Some v.
Proof.
  unfold keys_agree. split.
  - intros H k Hk Hn. specialize (H k Hn). apply elem_of_union_keys in Hk.
    destruct Hk as [[v Hv]|[v Hv]]; exists v; split; congruence.
  - intros H k Hn. destruct (cm !! k) as [v1|] eqn:Hc.
    + destruct (H k) as (v & Hv1 & Hv2); [|done|congruence].
      apply elem_of_union_keys. left. by rewrite Hc.
    + destruct (em !! k) as [v2|] eqn:He; [|done].
      destruct (H k) as (v & Hv1 & Hv2); [|done|congruence].
      apply elem_of_union_keys. right. by rewrite He.
Qed.

Lemma check_compatible_None f1 f2 cm em :
  check_compatible f1 f2 cm em = None ↔ fields_agree f1 f2 ∧ keys_agree cm em.
Proof.
  unfold check_compatible, fields_agree, assert_eq.
  rewrite keys_agree_alt. rewrite <- check_mars_keys_None.
  repeat case_decide; split; intros; try done; try tauto; naive_solver.
Qed.

Lemma check_compatible_Some f1 f2 cm em err :
  check_compatible f1 f2 cm em = Some err → violation f1 f2 cm em err.
Proof.
  unfold check_compatible, assert_eq.
  case_decide as Hg; [|intros [= <-]; by constructor].
  case_decide as Ha; [|intros [= <-]; by constructor].
  case_decide as Hs; [|intros [= <-]; by constructor].
  case_decide as Hv; [|intros [= <-]; by constructor].
  intros H. apply check_mars_keys_Some in H as (k & Hk & Hn & Hcase).
  apply elem_of_union_keys in Hk.
  destruct Hcase as [[-> Hmiss]|(v1 & v2 & H1 & H2 & Hne & ->)].
  - by apply violation_missing.
  - by eapply violation_value.
Qed.

Lemma compatible_shape c e : compatible c e → shape e = shape c.
Proof.
  unfold compatible. rewrite check_compatible_None. intros [(_ & _ & H & _) _]. done.
Qed.

(** ** Collections *)

Lemma insert_ordered_Permutation ks f l : insert_ordered ks f l ≡ₚ f :: l.
Proof.
  induction l as [|g l IH]; simpl; [done|].
  destruct (keys_compare ks f g); try done.
  rewrite IH. apply Permutation_swap.
Qed.

Lemma order_by_Permutation ks l : order_by ks l ≡ₚ l.
Proof.
  induction l as [|f l IH]; simpl; [done|].
  rewrite insert_ordered_Permutation. by rewrite IH.
Qed.

Lemma order_by_length ks l : length (order_by ks l) = length l.
Proof. by rewrite order_by_Permutation. Qed.

Lemma elem_of_unique_values key l v :
  v ∈ unique_values key l ↔ ∃ f, f ∈ l ∧ get_metadata f key = v.
Proof.
  unfold unique_values. rewrite elem_of_remove_dups, list_elem_of_fmap.
  split; intros (f & H1 & H2); exists f; auto.
Qed.

(** ** The monad *)

Lemma run_ret {A} (a : A) st : (mret a : M A) st = (Return a, st).
Proof. done. Qed.

Lemma run_bind {A B} (m : M A) (k : A → M B) st :
  (m ≫= k) st =
  match m st with
  | (Return a, st') => k a st'
  | (Raise e, st') => (Raise e, st')
  end.
Proof. done. Qed.

Lemma for_each_emit {A} (g : A → event) l st :
  for_each l (λ x, emit (g x)) st = (Return tt, State (trace st ++ map g l) (seen st)).
Proof.
  unfold for_each. revert st. induction l as [|x l IH]; intros st; simpl.
  - rewrite app_nil_r. by destruct st.
  - rewrite run_bind. unfold emit at 1. rewrite IH. simpl.
    by rewrite <- app_assoc.
Qed.

Lemma writes_app tr1 tr2 : writes (tr1 ++ tr2) = writes tr1 ++ writes tr2.
Proof. unfold writes. apply omap_app. Qed.

Lemma reads_app tr1 tr2 : reads (tr1 ++ tr2) = reads tr1 ++ reads tr2.
Proof. unfold reads. apply omap_app. Qed.

Lemma writes_log_members l : writes (map EvLogErrorMember l) = [].
Proof. induction l; simpl; auto. Qed.

Lemma writes_log_center l : writes (map EvLogErrorCenter l) = [].
Proof. induction l; simpl; auto. Qed.

Lemma reads_log_members l : reads (map EvLogErrorMember l) = [].
Proof. induction l; simpl; auto. Qed.

Lemma reads_log_center l : reads (map EvLogErrorCenter l) = [].
Proof. induction l; simpl; auto. Qed.

(** ** The preconditions of [perturbations] *)

(** The assertion of line 69 fails before anything else happens. *)
Lemma unset_number_run tmp members center clip output :
  (∃ f, f ∈ members ∧ get_metadata f "number" = VNone) →
  perturbations tmp members center clip output initial =
    (Raise (AssertionError ANumberUnset), State [] ∅).
Proof.
  intros Hex. apply elem_of_unique_values in Hex.
  unfold perturbations. rewrite run_bind. unfold assert.
  rewrite bool_decide_false by (intros Hn; by apply Hn).
  done.
Qed.

(** The count check of lines 76-82 fails: the log, then the [ValueError]. *)
Lemma count_mismatch_run tmp members center clip output :
  let n_numbers := length (unique_values "number" members) in
  let ms := order_by keys members in
  let cs := order_by keys center in
  VNone ∉ unique_values "number" members →
  length center * n_numbers ≠ length members →
  perturbations tmp members center clip output initial =
    (Raise (ValueError (length center) n_numbers (length members)),
     State (ordering_trace members center ++
            EvLogErrorCounts (length center) n_numbers (length members) ::
            map EvLogErrorMember ms ++ map EvLogErrorCenter cs) ∅).
Proof.
  intros n_numbers ms cs Hnone Hlen.
  unfold perturbations. rewrite run_bind. unfold assert at 1.
  rewrite bool_decide_true by done. rewrite run_ret.
  do 4 (rewrite run_bind; unfold emit at 1).
  rewrite run_bind. rewrite !order_by_length.
  rewrite bool_decide_true by done.
  rewrite run_bind. unfold emit at 1.
  rewrite run_bind, for_each_emit. rewrite run_bind, for_each_emit.
  unfold raise. simpl. reflexivity.
Qed.

(** ** Loops *)

Lemma hoare_for_fold {A T} (I : nat → T → state → Prop) E
    (body : A → T → M T) (l : list A) (s : T) :
  (∀ k x s, l !! k = Some x → hoare (I k s) (body x s) (I (S k)) E) →
  hoare (I 0%nat s) (for_fold l s body) (I (length l)) E.
Proof.
  revert I s. induction l as [|x l IH]; intros I s Hbody st HI; simpl.
  - done.
  - rewrite run_bind.
    pose proof (Hbody 0%nat x s eq_refl st HI) as Hx.
    destruct (body x s st) as [[s'|e] st']; [|done].
    apply (IH (λ k, I (S k))); [|done].
    intros k y s0 Hk. apply (Hbody (S k)). done.
Qed.

Lemma hoare_for_each {A} (I : nat → state → Prop) E
    (body : A → M unit) (l : list A) :
  (∀ k x, l !! k = Some x → hoare (I k) (body x) (λ _, I (S k)) E) →
  hoare (I 0%nat) (for_each l body) (λ _, I (length l)) E.
Proof.
  intros Hbody. unfold for_each.
  apply (hoare_for_fold (λ k _, I k)). intros k x _ Hk. by apply Hbody.
Qed.

Lemma hoare_for_enum {A} (I : nat → state → Prop) E
    (body : nat → A → M unit) (l : list A) (i : nat) :
  (∀ k x, l !! k = Some x → hoare (I (i + k)%nat) (body (i + k)%nat x) (λ _, I (S (i + k))) E) →
  hoare (I i) (for_enum i l body) (λ _, I (i + length l)%nat) E.
Proof.
  revert i. induction l as [|x l IH]; intros i Hbody st HI; simpl.
  - by rewrite Nat.add_0_r.
  - rewrite run_bind.
    pose proof (Hbody 0%nat x eq_refl st) as Hx. rewrite Nat.add_0_r in Hx.
    specialize (Hx HI).
    destruct (body i x st) as [[[]|e] st']; [|done].
    replace (i + S (length l))%nat with (S i + length l)%nat by lia.
    apply IH; [|done].
    intros k y Hk. replace (S i + k)%nat with (i + S k)%nat by lia.
    by apply Hbody.
Qed.

(** ** One round of each inner loop *)

Section rounds.
Variable members : list Field.
Variable n_numbers : nat.
Variable clip_variables : list string.

Lemma load_member_run i c c_np j rows st e :
  members !! (i * n_numbers + j)%nat = Some e →
  load_member members n_numbers i c c_np j rows st =
    match check_compatible c e (as_mars c) (as_mars e) with
    | Some err => (Raise err, st)
    | None =>
        if bool_decide (canon e ∈ seen st)
        then (Raise (AssertionError (ADuplicate (canon e))),
              State (trace st ++ [EvToNumpy e]) (seen st))
        else (Return (<[j := NdArray (nd_shape c_np) (nd_data (to_numpy e))]> rows),
              State (trace st ++ [EvToNumpy e]) ({[canon e]} ∪ seen st))
    end.
Proof.
  intros He. unfold load_member, get_item. rewrite He.
  rewrite run_bind, run_ret, run_bind.
  destruct (check_compatible c e (as_mars c) (as_mars e)) as [err|]; [done|].
  simpl. rewrite run_bind. unfold read_numpy. rewrite run_bind. unfold emit at 1.
  rewrite run_ret, run_bind. unfold get_seen at 1. cbn [seen].
  rewrite run_bind. unfold assert. fold (canon e).
  destruct (decide (canon e ∈ seen st)) as [Hin|Hnin].
  - rewrite (bool_decide_false (canon e ∉ seen st)) by (intros Hn; by apply Hn).
    by rewrite bool_decide_true.
  - rewrite (bool_decide_true (canon e ∉ seen st)) by done.
    by rewrite bool_decide_false.
Qed.

Lemma recenter_shape param c m e : nd_shape (recenter clip_variables param c m e) = nd_shape c.
Proof. unfold recenter. by destruct (value_in param clip_variables). Qed.

Lemma write_member_run i param c_np m rows j st e row :
  members !! (i * n_numbers + j)%nat = Some e →
  rows !! j = Some row →
  nd_shape row = nd_shape c_np →
  nd_shape m = nd_shape c_np →
  write_member members n_numbers clip_variables i param c_np m rows j st =
    (Return tt,
     State (trace st ++ [EvWrite (recenter clip_variables param c_np m row) e]) (seen st)).
Proof.
  intros He Hrow Hs1 Hs2. unfold write_member, get_item. rewrite He, Hrow.
  rewrite run_bind, run_ret, run_bind, run_ret, run_bind. unfold assert.
  rewrite bool_decide_true by (split; congruence).
  rewrite run_ret. fold (recenter clip_variables param c_np m row).
  rewrite run_bind. rewrite recenter_shape.
  rewrite bool_decide_true by congruence.
  by rewrite run_ret.
Qed.
End rounds.

Lemma hoare_conseq {A} (P P' : state → Prop) (Q Q' : A → state → Prop)
    (E E' : exn → state → Prop) (m : M A) :
  hoare P' m Q' E' →
  (∀ st, P st → P' st) →
  (∀ a st, Q' a st → Q a st) →
  (∀ e st, E' e st → E e st) →
  hoare P m Q E.
Proof.
  intros Hm HP HQ HE st Hst. specialize (Hm st (HP st Hst)).
  destruct (m st) as [[a|e] st']; auto.
Qed.

Lemma NoDup_lookup_not_in_take {A} (l : list A) p x :
  NoDup l → l !! p = Some x → x ∉ take p l.
Proof.
  intros Hnd Hp Hin. apply elem_of_take in Hin as (i & Hi & Hlt).
  pose proof (NoDup_lookup l i p x Hnd Hi Hp). lia.
Qed.

(** ** The loop over the center fields *)

Section run.
(** The ordered collections, once the count check has passed. *)
Variable members center : list Field.
Variable n_numbers : nat.
Variable clip_variables : list string.
Hypothesis Hlen : length center * n_numbers = length members.

Lemma block_lookup i j :
  j < n_numbers →
  block members n_numbers i !! j = members !! (i * n_numbers + j)%nat.
Proof. intros Hj. unfold block. by rewrite lookup_take_lt, lookup_drop. Qed.

Lemma member_in_range i j :
  i < length center → j < n_numbers → i * n_numbers + j < length members.
Proof. nia. Qed.

Lemma block_length i :
  i < length center → length (block members n_numbers i) = n_numbers.
Proof. intros Hi. unfold block. rewrite length_take, length_drop. nia. Qed.

Lemma take_block_snoc i j e :
  j < n_numbers → members !! (i * n_numbers + j)%nat = Some e →
  take (S j) (block members n_numbers i) = take j (block members n_numbers i) ++ [e].
Proof. intros Hj He. apply take_S_r. by rewrite block_lookup. Qed.

(** The position [q] of the first repeated key set ([len(members)] when
    there is none): the fields up to [q] pass [check_compatible], the key
    sets before [q] are distinct, and the one at [q] repeats one of them. *)
Variable q : nat.
Hypothesis Hq : q ≤ length members.
Hypothesis Hgood : ∀ p e c,
  p ≤ q → members !! p = Some e → center !! (p / n_numbers)%nat = Some c →
  compatible c e.
Hypothesis Hnodup : NoDup (canon <$> take q members).
Hypothesis Hdup : ∀ e, members !! q = Some e → canon e ∈ canon <$> take q members.

Lemma load_block i c W :
  center !! i = Some c →
  hoare
    (λ st, writes (trace st) = W ∧
           seen st = list_to_set (canon <$> take (i * n_numbers) members) ∧
           i * n_numbers ≤ q)
    (for_fold (seq 0 n_numbers) (replicate n_numbers (nd_zeros (shape c)))
       (load_member members n_numbers i c (to_numpy c)))
    (λ rows st, rows = block_rows c (block members n_numbers i) ∧
           writes (trace st) = W ∧
           seen st = list_to_set (canon <$> take (S i * n_numbers) members) ∧
           S i * n_numbers ≤ q)
    (λ err st, q < length members ∧ (q / n_numbers)%nat = i ∧
           (∃ e, members !! q = Some e ∧
                 err = AssertionError (ADuplicate (canon e))) ∧
           writes (trace st) = W).
Proof.
  intros Hc.
  assert (Hi : i < length center) by (by eapply lookup_lt_Some).
  set (I := λ (k : nat) (rows : list ndarray) (st : state),
         writes (trace st) = W ∧
         seen st = list_to_set (canon <$> take (i * n_numbers + k) members) ∧
         i * n_numbers + k ≤ q ∧ length rows = n_numbers ∧
         take k rows = block_rows c (take k (block members n_numbers i))).
  set (E := λ (err : exn) (st : state),
         q < length members ∧ (q / n_numbers)%nat = i ∧
         (∃ e, members !! q = Some e ∧
               err = AssertionError (ADuplicate (canon e))) ∧
         writes (trace st) = W).
  assert (Hstep : ∀ k j rows, seq 0 n_numbers !! k = Some j →
            hoare (I k rows) (load_member members n_numbers i c (to_numpy c) j rows)
                  (I (S k)) E).
  {
    intros k j rows Hk. apply lookup_seq in Hk as [-> Hk]. simpl.
    intros st (HW & Hseen & Hle & Hrows & Htake).
    pose proof (member_in_range i k Hi Hk) as Hp.
    destruct (lookup_lt_is_Some_2 members _ Hp) as [e He].
    rewrite (load_member_run _ _ _ _ _ _ _ _ e He).
    assert (Hdiv : ((i * n_numbers + k) / n_numbers)%nat = i).
    { rewrite Nat.add_comm, Nat.div_add by lia. rewrite Nat.div_small by done. done. }
    rewrite (Hgood _ e c Hle He) by (by rewrite Hdiv).
    destruct (decide (i * n_numbers + k = q)) as [Heq|Hne].
    - rewrite bool_decide_true.
      2:{ rewrite Hseen, elem_of_list_to_set, Heq. apply Hdup. by rewrite <- Heq. }
      unfold E. cbn [trace seen]. rewrite writes_app, HW. simpl. rewrite app_nil_r.
      split; [lia|]. split; [by rewrite <- Heq|]. split; [|done].
      exists e. by rewrite <- Heq.
    - assert (Hlt : i * n_numbers + k < q) by lia.
      assert (Hfresh : canon e ∉ canon <$> take (i * n_numbers + k) members).
      { replace (take (i * n_numbers + k) members)
          with (take (i * n_numbers + k) (take q members))
          by (rewrite take_take; f_equal; lia).
        rewrite fmap_take. apply NoDup_lookup_not_in_take; [done|].
        rewrite list_lookup_fmap, lookup_take_lt by done. by rewrite He. }
      rewrite bool_decide_false by (by rewrite Hseen, elem_of_list_to_set).
      unfold I. cbn [trace seen]. rewrite writes_app, HW. simpl. rewrite app_nil_r.
      split; [done|]. split.
      { replace (i * n_numbers + S k)%nat with (S (i * n_numbers + k)) by lia.
        rewrite (take_S_r _ _ _ He), fmap_app, list_to_set_app_L, Hseen. simpl.
        rewrite (right_id_L ∅ (∪)). apply (comm_L (∪)). }
      split; [lia|]. split; [by rewrite length_insert|].
      rewrite (take_block_snoc i k e Hk He). unfold block_rows. rewrite fmap_app.
      fold (block_rows c (take k (block members n_numbers i))). rewrite <- Htake.
      simpl. rewrite take_S_r with (x := block_row c e).
      + f_equal. apply take_insert_ge. lia.
      + rewrite list_lookup_insert_eq by lia. done.
  }
  eapply hoare_conseq; [exact (hoare_for_fold I E _ _ _ Hstep) | ..].
  - intros st (HW & Hseen & Hle). unfold I. rewrite Nat.add_0_r.
    repeat split; auto. by rewrite length_replicate.
  - intros rows st (HW & Hseen & Hle & Hrows & Htake).
    rewrite length_seq in *.
    replace (S i * n_numbers)%nat with (i * n_numbers + n_numbers)%nat by lia.
    repeat split; auto.
    rewrite <- (firstn_all rows), Hrows, Htake.
    f_equal. rewrite <- (block_length i Hi) at 1. apply firstn_all.
  - intros err st H. exact H.
Qed.

Lemma write_block i c W seen0 :
  center !! i = Some c →
  hoare
    (λ st, writes (trace st) = W ∧ seen st = seen0)
    (for_each (seq 0 n_numbers)
       (write_member members n_numbers clip_variables i (get_metadata c "param")
          (to_numpy c) (block_mean c (block members n_numbers i))
          (block_rows c (block members n_numbers i))))
    (λ _ st, writes (trace st) =
               W ++ block_writes clip_variables c (block members n_numbers i) ∧
             seen st = seen0)
    (λ _ _, False).
Proof.
  intros Hc.
  assert (Hi : i < length center) by (by eapply lookup_lt_Some).
  set (bw := block_writes clip_variables c (block members n_numbers i)).
  assert (Hbw : length bw = n_numbers).
  { unfold bw, block_writes. by rewrite length_fmap, block_length. }
  set (I := λ (k : nat) (st : state),
         writes (trace st) = W ++ take k bw ∧ seen st = seen0).
  assert (Hstep : ∀ k j, seq 0 n_numbers !! k = Some j →
            hoare (I k)
              (write_member members n_numbers clip_variables i (get_metadata c "param")
                 (to_numpy c) (block_mean c (block members n_numbers i))
                 (block_rows c (block members n_numbers i)) j)
              (λ _, I (S k)) (λ _ _, False)).
  { intros k j Hk. apply lookup_seq in Hk as [-> Hk]. simpl.
    intros st (HW & Hseen).
    pose proof (member_in_range i k Hi Hk) as Hp.
    destruct (lookup_lt_is_Some_2 members _ Hp) as [e He].
    assert (Hblk : block members n_numbers i !! k = Some e)
      by (by rewrite block_lookup).
    rewrite (write_member_run _ _ _ _ _ _ _ _ _ _ e (block_row c e) He).
    - unfold I. cbn [trace seen]. rewrite writes_app, HW. simpl.
      split; [|done]. rewrite <- app_assoc. f_equal.
      symmetry. apply take_S_r. unfold bw, block_writes.
      by rewrite list_lookup_fmap, Hblk.
    - unfold block_rows. by rewrite list_lookup_fmap, Hblk.
    - done.
    - done. }
  eapply hoare_conseq; [exact (hoare_for_each I _ _ _ Hstep) | ..].
  - intros st (HW & Hseen). unfold I. simpl. by rewrite app_nil_r.
  - intros _ st (HW & Hseen). rewrite length_seq in HW.
    rewrite <- Hbw, firstn_all in HW. done.
  - done.
Qed.

Lemma recenter_block_run i c W :
  center !! i = Some c →
  hoare
    (λ st, writes (trace st) = W ∧
           seen st = list_to_set (canon <$> take (i * n_numbers) members) ∧
           i * n_numbers ≤ q)
    (recenter_block members n_numbers clip_variables i c)
    (λ _ st, writes (trace st) =
               W ++ block_writes clip_variables c (block members n_numbers i) ∧
             seen st = list_to_set (canon <$> take (S i * n_numbers) members) ∧
             S i * n_numbers ≤ q)
    (λ err st, q < length members ∧ (q / n_numbers)%nat = i ∧
           (∃ e, members !! q = Some e ∧
                 err = AssertionError (ADuplicate (canon e))) ∧
           writes (trace st) = W).
Proof.
  intros Hc st (HW & Hseen & Hle).
  unfold recenter_block. rewrite run_bind. unfold read_numpy.
  rewrite run_bind. unfold emit at 1. rewrite run_ret, run_bind.
  set (st1 := State (trace st ++ [EvToNumpy c]) (seen st)).
  assert (H1 : writes (trace st1) = W ∧
               seen st1 = list_to_set (canon <$> take (i * n_numbers) members) ∧
               i * n_numbers ≤ q).
  { unfold st1. cbn [trace seen]. rewrite writes_app, HW. simpl.
    by rewrite app_nil_r. }
  pose proof (load_block i c W Hc st1 H1) as Hload.
  fold (shape c).
  destruct (for_fold _ _ _ st1) as [[rows|err] st2]; [|exact Hload].
  destruct Hload as (-> & HW2 & Hseen2 & Hle2).
  fold (block_mean c (block members n_numbers i)).
  pose proof (write_block i c W _ Hc st2 (conj HW2 eq_refl)) as Hwrite.
  destruct (for_each _ _ st2) as [[[]|err] st3]; [|done].
  destruct Hwrite as [HW3 Hseen3]. rewrite Hseen3. done.
Qed.

Lemma all_writes_snoc i l c :
  all_writes clip_variables members n_numbers i (l ++ [c]) =
  all_writes clip_variables members n_numbers i l ++
  block_writes clip_variables c (block members n_numbers (i + length l)).
Proof.
  revert i. induction l as [|c' l IH]; intros i; simpl.
  - by rewrite app_nil_r, Nat.add_0_r.
  - rewrite IH, <- app_assoc. replace (S i + length l) with (i + S (length l)) by lia.
    done.
Qed.

Lemma center_loop_run :
  hoare
    (λ st, writes (trace st) = [] ∧ seen st = ∅)
    (for_enum 0 center (recenter_block members n_numbers clip_variables))
    (λ _ st, q = length members ∧
             writes (trace st) = all_writes clip_variables members n_numbers 0 center ∧
             seen st = list_to_set (canon <$> members))
    (λ err st, q < length members ∧
             (∃ e, members !! q = Some e ∧
                   err = AssertionError (ADuplicate (canon e))) ∧
             writes (trace st) =
               all_writes clip_variables members n_numbers 0
                 (take (q / n_numbers) center)).
Proof.
  set (I := λ (i : nat) (st : state),
         writes (trace st) =
           all_writes clip_variables members n_numbers 0 (take i center) ∧
         seen st = list_to_set (canon <$> take (i * n_numbers) members) ∧
         i * n_numbers ≤ q).
  set (E := λ (err : exn) (st : state),
         q < length members ∧
         (∃ e, members !! q = Some e ∧
               err = AssertionError (ADuplicate (canon e))) ∧
         writes (trace st) =
           all_writes clip_variables members n_numbers 0
             (take (q / n_numbers) center)).
  assert (Hstep : ∀ k c, center !! k = Some c →
            hoare (I (0 + k)) (recenter_block members n_numbers clip_variables (0 + k) c)
                  (λ _, I (S (0 + k))) E).
  { intros k c Hc. simpl.
    pose proof (lookup_lt_Some _ _ _ Hc) as Hk.
    eapply hoare_conseq;
      [exact (recenter_block_run k c
                (all_writes clip_variables members n_numbers 0 (take k center)) Hc) | ..].
    - intros st H. exact H.
    - intros _ st (HW & Hseen & Hle). unfold I.
      rewrite (take_S_r _ _ _ Hc), all_writes_snoc, length_take.
      replace (0 + k `min` length center) with k by lia. done.
    - intros err st (Hlt & Hdiv & Hex & HW). unfold E. by rewrite Hdiv. }
  eapply hoare_conseq; [exact (hoare_for_enum I E _ _ _ Hstep) | ..].
  - intros st (HW & Hseen). unfold I. simpl. repeat split; [done|done|lia].
  - intros _ st (HW & Hseen & Hle). simpl in *.
    rewrite firstn_all in HW.
    assert (q = length members) as Hqeq by lia.
    rewrite Hlen, firstn_all in Hseen. done.
  - done.
Qed.
End run.

(** ** The size of [seen] *)

Lemma violation_not_seen_count f1 f2 cm em err :
  violation f1 f2 cm em err → not_seen_count err.
Proof. by intros []. Qed.

Lemma write_member_seen members n_numbers clip_variables i param c_np m rows j st :
  match write_member members n_numbers clip_variables i param c_np m rows j st with
  | (Return _, st') => seen st' = seen st
  | (Raise err, _) => not_seen_count err
  end.
Proof.
  unfold write_member, get_item, assert.
  rewrite run_bind. destruct (members !! (i * n_numbers + j)); [|done].
  rewrite run_ret, run_bind. destruct (rows !! j); [|done].
  rewrite run_ret, run_bind. case_bool_decide; [|done].
  rewrite run_ret, run_bind. case_bool_decide; [|done].
  by rewrite run_ret.
Qed.

Section seen_size.
Variable members center : list Field.
Variable n_numbers : nat.
Variable clip_variables : list string.
Hypothesis Hlen : length center * n_numbers = length members.

Lemma load_block_seen_size i c c_np rows0 :
  i < length center →
  hoare (λ st, size (seen st) = i * n_numbers)
    (for_fold (seq 0 n_numbers) rows0 (load_member members n_numbers i c c_np))
    (λ _ st, size (seen st) = S i * n_numbers)
    (λ err _, not_seen_count err).
Proof.
  intros Hi.
  set (I := λ (k : nat) (_ : list ndarray) (st : state),
         size (seen st) = i * n_numbers + k).
  assert (Hstep : ∀ k j rows, seq 0 n_numbers !! k = Some j →
            hoare (I k rows) (load_member members n_numbers i c c_np j rows)
                  (I (S k)) (λ err _, not_seen_count err)).
  { intros k j rows Hk. apply lookup_seq in Hk as [-> Hk]. simpl.
    intros st Hsize. unfold I in Hsize.
    pose proof (member_in_range members center n_numbers Hlen i k Hi Hk) as Hp.
    destruct (lookup_lt_is_Some_2 members _ Hp) as [e He].
    rewrite (load_member_run _ _ _ _ _ _ _ _ e He).
    destruct (check_compatible c e (as_mars c) (as_mars e)) as [err|] eqn:Hchk.
    { eapply violation_not_seen_count, check_compatible_Some, Hchk. }
    case_bool_decide as Hin; [done|].
    unfold I. cbn [seen].
    rewrite size_union by (apply disjoint_singleton_l; done).
    rewrite size_singleton. lia. }
  eapply hoare_conseq; [exact (hoare_for_fold I _ _ _ rows0 Hstep) | ..].
  - intros st Hsize. unfold I. lia.
  - intros rows st Hsize. unfold I in Hsize. rewrite length_seq in Hsize. lia.
  - done.
Qed.

Lemma write_block_seen_size i param c_np m rows size0 :
  hoare (λ st, size (seen st) = size0)
    (for_each (seq 0 n_numbers)
       (write_member members n_numbers clip_variables i param c_np m rows))
    (λ _ st, size (seen st) = size0)
    (λ err _, not_seen_count err).
Proof.
  eapply hoare_conseq;
    [apply (hoare_for_each (λ _ st, size (seen st) = size0)
              (λ err _, not_seen_count err)) | ..];
    try done.
  intros k j _ st Hsize.
  pose proof (write_member_seen members n_numbers clip_variables i param c_np m rows j st) as Hs.
  destruct (write_member _ _ _ _ _ _ _ _ _ st) as [[[]|err] st']; [|done].
  by rewrite Hs.
Qed.

(** Whenever the loop over the center fields completes, [seen] has
    [len(members)] elements. *)
Lemma center_loop_seen_size :
  hoare (λ st, seen st = ∅)
    (for_enum 0 center (recenter_block members n_numbers clip_variables))
    (λ _ st, size (seen st) = length members)
    (λ err _, not_seen_count err).
Proof.
  set (I := λ (i : nat) (st : state), size (seen st) = i * n_numbers).
  assert (Hstep : ∀ k c, center !! k = Some c →
            hoare (I (0 + k)) (recenter_block members n_numbers clip_variables (0 + k) c)
                  (λ _, I (S (0 + k))) (λ err _, not_seen_count err)).
  { intros k c Hc. simpl. pose proof (lookup_lt_Some _ _ _ Hc) as Hk.
    intros st Hsize. unfold I in Hsize.
    unfold recenter_block. rewrite run_bind. unfold read_numpy.
    rewrite run_bind. unfold emit at 1. rewrite run_ret, run_bind.
    set (st1 := State (trace st ++ [EvToNumpy c]) (seen st)).
    pose proof (load_block_seen_size k c (to_numpy c)
                  (replicate n_numbers (nd_zeros (nd_shape (to_numpy c)))) Hk st1 Hsize)
      as Hload.
    destruct (for_fold _ _ _ st1) as [[rows|err] st2]; [|done].
    pose proof (write_block_seen_size k (get_metadata c "param") (to_numpy c)
                  (nd_mean (nd_shape (to_numpy c)) rows) rows _ st2 Hload) as Hwrite.
    destruct (for_each _ _ st2) as [[[]|err] st3]; done. }
  eapply hoare_conseq; [exact (hoare_for_enum I _ _ _ _ Hstep) | ..].
  - intros st Hseen. unfold I. rewrite Hseen, size_empty. lia.
  - intros [] st Hsize. unfold I in Hsize. simpl in Hsize. lia.
  - done.
Qed.
End seen_size.

Lemma finalize_not_seen_count tmp path ms output st :
  size (seen st) = length ms →
  match finalize tmp path ms output st with
  | (Return _, _) => True
  | (Raise err, _) => not_seen_count err
  end.
Proof.
  intros Hsize. unfold finalize.
  rewrite run_bind. unfold get_seen at 1. rewrite run_bind. unfold assert at 1.
  rewrite bool_decide_true by done. rewrite run_ret, run_bind. unfold emit at 1.
  destruct output as [p|]; [done|].
  unfold load_source. rewrite run_bind, run_bind. unfold emit at 1.
  rewrite run_bind. unfold get_trace at 1. rewrite run_ret.
  unfold assert_is_fieldset. rewrite run_bind, run_ret, run_bind.
  unfold assert. case_bool_decide; done.
Qed.

(** ** From the checks to the loop *)

Lemma perturbations_unfold tmp members center clip output :
  let n_numbers := length (unique_values "number" members) in
  let ms := order_by keys members in
  let cs := order_by keys center in
  VNone ∉ unique_values "number" members →
  length center * n_numbers = length members →
  perturbations tmp members center clip output initial =
    (for_enum 0 cs (recenter_block ms n_numbers clip);;
     finalize tmp (default tmp output) ms output)
      (loop_start tmp members center output).
Proof.
  intros n_numbers ms cs Hnone Hlen.
  unfold perturbations. rewrite run_bind. unfold assert at 1.
  rewrite bool_decide_true by done. rewrite run_ret.
  do 4 (rewrite run_bind; unfold emit at 1).
  rewrite run_bind. rewrite !order_by_length.
  rewrite bool_decide_false by (intros Hne; by apply Hne).
  rewrite run_ret. destruct output as [p|]; reflexivity.
Qed.

Lemma writes_loop_start tmp members center output :
  writes (trace (loop_start tmp members center output)) = [].
Proof. by destruct output. Qed.

Lemma finalize_run tmp path ms output st :
  size (seen st) = length ms →
  length (writes (trace st)) = length ms →
  ∃ st',
    finalize tmp path ms output st =
      (Return match output with
              | Some _ => RPath path
              | None => RDataset ((λ xt, with_values xt.2 xt.1) <$> writes (trace st)) tmp
              end, st') ∧
    writes (trace st') = writes (trace st) ∧ seen st' = seen st.
Proof.
  intros Hsize Hw. unfold finalize.
  rewrite run_bind. unfold get_seen at 1. rewrite run_bind. unfold assert at 1.
  rewrite bool_decide_true by done. rewrite run_ret, run_bind. unfold emit at 1.
  destruct output as [p|].
  - eexists. split; [reflexivity|]. cbn [trace seen].
    rewrite writes_app. simpl. by rewrite app_nil_r.
  - unfold load_source. rewrite run_bind, run_bind. unfold emit at 1.
    rewrite run_bind. unfold get_trace at 1. cbn [trace seen]. rewrite run_ret.
    unfold assert_is_fieldset. rewrite run_bind, run_ret, run_bind.
    assert (Hws : writes ((trace st ++ [EvClose]) ++ [EvLoadSource path]) = writes (trace st)).
    { rewrite !writes_app. simpl. by rewrite !app_nil_r. }
    rewrite Hws. unfold assert. rewrite length_fmap.
    rewrite bool_decide_true by done. rewrite run_ret.
    eexists. split; [reflexivity|]. cbn [trace seen]. done.
Qed.

(** ** Arithmetic on grids *)

Lemma foldl_nd_add_shape acc rows : nd_shape (foldl nd_add acc rows) = nd_shape acc.
Proof. revert acc. induction rows as [|r rows IH]; intros acc; simpl; [done|]. by rewrite IH. Qed.

Lemma foldl_nd_add_lookup rows acc k a :
  (∀ r, r ∈ rows → k < length (nd_data r)) →
  nd_data acc !! k = Some a →
  nd_data (foldl nd_add acc rows) !! k =
    Some (foldl Qplus a ((λ r, cell r k) <$> rows)).
Proof.
  revert acc a. induction rows as [|r rows IH]; intros acc a Hrows Ha; simpl; [done|].
  apply IH.
  - intros r' Hr'. apply Hrows. by right.
  - simpl. rewrite lookup_zip_with, Ha. simpl.
    destruct (lookup_lt_is_Some_2 (nd_data r) k) as [v Hv]; [apply Hrows; by left|].
    unfold cell. by rewrite Hv.
Qed.

Lemma nd_mean_lookup sh rows k :
  (∀ r, r ∈ rows → k < length (nd_data r)) →
  k < nd_size sh →
  nd_data (nd_mean sh rows) !! k = Some (Qmean ((λ r, cell r k) <$> rows)).
Proof.
  intros Hrows Hk. unfold nd_mean. simpl. rewrite list_lookup_fmap.
  rewrite (foldl_nd_add_lookup rows _ k 0%Q Hrows).
  - unfold Qmean, Qsum. by rewrite length_fmap.
  - simpl. by apply lookup_replicate_2.
Qed.

Lemma nd_mean_length sh rows :
  (∀ r, r ∈ rows → length (nd_data r) = nd_size sh) →
  length (nd_data (nd_mean sh rows)) = nd_size sh.
Proof.
  intros Hrows. unfold nd_mean. simpl. rewrite length_fmap.
  assert (H : ∀ acc, length (nd_data acc) = nd_size sh →
              length (nd_data (foldl nd_add acc rows)) = nd_size sh).
  { induction rows as [|r rows IH]; intros acc Hacc; simpl; [done|].
    apply IH.
    - intros r' Hr'. apply Hrows. by right.
    - simpl. rewrite length_zip_with, Hacc, (Hrows r) by (by left). lia. }
  apply H. simpl. by rewrite length_replicate.
Qed.

Lemma foldl_Qplus_acc l a : (foldl Qplus a l == a + foldl Qplus 0 l)%Q.
Proof.
  revert a. induction l as [|x l IH]; intros a; simpl.
  - ring.
  - rewrite (IH (a + x)%Q), (IH (0 + x)%Q). ring.
Qed.

Lemma Qsum_shift {A} (f : A → Q) (d : Q) (l : list A) :
  (Qsum ((λ x, d + f x) <$> l) ==
   inject_Z (Z.of_nat (length l)) * d + Qsum (f <$> l))%Q.
Proof.
  unfold Qsum. induction l as [|x l IH].
  - simpl. ring.
  - cbn [fmap list_fmap foldl length].
    rewrite (foldl_Qplus_acc _ (0 + (d + f x))%Q), (foldl_Qplus_acc _ (0 + f x)%Q), IH.
    rewrite Nat2Z.inj_succ. unfold Z.succ. rewrite inject_Z_plus. ring.
Qed.

(** The mean of values shifted to a common target [c]: each value moved by
    [c - m], where [m] is their mean, gives values whose mean is [c]. *)
Lemma Qmean_recentered {A} (f : A → Q) (c : Q) (l : list A) :
  0 < length l →
  (Qmean ((λ x, c - Qmean (f <$> l) + f x) <$> l) == c)%Q.
Proof.
  intros Hpos. unfold Qmean at 1. rewrite Qsum_shift, length_fmap.
  unfold Qmean. rewrite length_fmap.
  assert (Hn : ¬ (inject_Z (Z.of_nat (length l)) == 0)%Q).
  { unfold Qeq. simpl. lia. }
  field. exact Hn.
Qed.


(** ** The layout of the output *)

Section layout.
Variable members center : list Field.
Variable n_numbers : nat.
Variable clip_variables : list string.
Hypothesis Hlen : length center * n_numbers = length members.

Lemma block_writes_length c es : length (block_writes clip_variables c es) = length es.
Proof. unfold block_writes. by rewrite length_fmap. Qed.

Lemma all_writes_length i l :
  i + length l ≤ length center →
  length (all_writes clip_variables members n_numbers i l) = length l * n_numbers.
Proof.
  revert i. induction l as [|c l IH]; intros i Hi; simpl in *; [done|].
  rewrite length_app, block_writes_length, IH by lia.
  rewrite (block_length members center n_numbers Hlen) by lia. done.
Qed.

Lemma all_writes_lookup l i k c j :
  i + length l ≤ length center →
  l !! k = Some c → j < n_numbers →
  all_writes clip_variables members n_numbers i l !! (k * n_numbers + j) =
  block_writes clip_variables c (block members n_numbers (i + k)) !! j.
Proof.
  revert i k. induction l as [|c0 l IH]; intros i k Hi Hk Hj; [done|].
  simpl in Hi. cbn [all_writes].
  assert (Hb : length (block_writes clip_variables c0 (block members n_numbers i)) = n_numbers).
  { rewrite block_writes_length. apply (block_length members center n_numbers Hlen). lia. }
  destruct k as [|k]; simpl in Hk.
  - injection Hk as ->. rewrite Nat.add_0_r. simpl.
    apply lookup_app_l. by rewrite Hb.
  - rewrite lookup_app_r by (rewrite Hb; lia). rewrite Hb.
    replace (S k * n_numbers + j - n_numbers) with (k * n_numbers + j) by lia.
    rewrite (IH (S i) k) by (done || lia).
    by replace (S i + k) with (i + S k) by lia.
Qed.

Lemma elem_of_block i e :
  e ∈ block members n_numbers i →
  ∃ j, j < n_numbers ∧ members !! (i * n_numbers + j) = Some e.
Proof.
  unfold block. intros He. apply elem_of_take in He as (j & Hj & Hlt).
  rewrite lookup_drop in Hj. eauto.
Qed.
End layout.

(** ** Runs on valid input *)

Lemma valid_input_length members center :
  valid_input members center →
  length (order_by keys center) * length (unique_values "number" members) =
  length (order_by keys members).
Proof. intros (_ & Hlen & _). by rewrite !order_by_length. Qed.

Lemma valid_input_run tmp members center clip output :
  let n_numbers := length (unique_values "number" members) in
  let ms := order_by keys members in
  let cs := order_by keys center in
  valid_input members center →
  ∃ st,
    perturbations tmp members center clip output initial =
      (Return match output with
              | Some p => RPath p
              | None => RDataset ((λ xt, with_values xt.2 xt.1) <$>
                                    all_writes clip ms n_numbers 0 cs) tmp
              end, st) ∧
    writes (trace st) = all_writes clip ms n_numbers 0 cs ∧
    seen st = list_to_set (canon <$> ms).
Proof.
  intros n_numbers ms cs Hvalid.
  pose proof (valid_input_length _ _ Hvalid) as Hlen'.
  destruct Hvalid as (Hnone & Hlen & Hnd & Hcompat).
  fold n_numbers ms cs in Hlen', Hcompat.
  rewrite perturbations_unfold by done. fold n_numbers ms cs.
  rewrite run_bind.
  assert (Hloop :
    hoare (λ st : state, writes (trace st) = [] ∧ seen st = ∅)
      (for_enum 0 cs (recenter_block ms n_numbers clip))
      (λ _ st, length ms = length ms ∧
               writes (trace st) = all_writes clip ms n_numbers 0 cs ∧
               seen st = list_to_set (canon <$> ms))
      (λ err st, length ms < length ms ∧
               (∃ e, ms !! length ms = Some e ∧
                     err = AssertionError (ADuplicate (canon e))) ∧
               writes (trace st) =
                 all_writes clip ms n_numbers 0 (take (length ms / n_numbers) cs))).
  { apply center_loop_run; try done.
    - intros p e c _ He. apply Hcompat; [by eapply lookup_lt_Some | done].
    - rewrite firstn_all. unfold ms. by rewrite order_by_Permutation.
    - intros e He. apply lookup_lt_Some in He. lia. }
  specialize (Hloop (loop_start tmp members center output)
                (conj (writes_loop_start _ _ _ _) eq_refl)).
  destruct (for_enum _ _ _ _) as [[[]|err] st1]; [|lia].
  destruct Hloop as (_ & HW & Hseen).
  destruct (finalize_run tmp (default tmp output) ms output st1) as (st' & Hfin & HW' & Hseen').
  - rewrite Hseen, size_list_to_set; [by rewrite length_fmap|].
    unfold ms. by rewrite order_by_Permutation.
  - rewrite HW, (all_writes_length ms cs n_numbers clip Hlen') by lia. simpl. lia.
  - exists st'. rewrite Hfin, HW', Hseen', HW.
    split; [|done]. by destruct output.
Qed.

(** The assertion of line 144 never fails. *)
Lemma seen_count_never_raised tmp members center clip output a b st :
  perturbations tmp members center clip output initial ≠
    (Raise (AssertionError (ASeen a b)), st).
Proof.
  intros Hrun.
  destruct (decide (VNone ∈ unique_values "number" members)) as [Hin|Hnone].
  { apply elem_of_unique_values in Hin.
    rewrite (unset_number_run tmp members center clip output Hin) in Hrun.
    discriminate. }
  destruct (decide (length center * length (unique_values "number" members)
                    = length members)) as [Hlen|Hlen].
  2:{ rewrite (count_mismatch_run tmp members center clip output Hnone Hlen) in Hrun.
      discriminate. }
  rewrite perturbations_unfold in Hrun by done. rewrite run_bind in Hrun.
  assert (Hlen' : length (order_by keys center) * length (unique_values "number" members)
                  = length (order_by keys members)) by (by rewrite !order_by_length).
  pose proof (center_loop_seen_size _ _ _ clip Hlen'
                (loop_start tmp members center output) eq_refl) as Hloop.
  destruct (for_enum _ _ _ _) as [[[]|err] st1].
  - pose proof (finalize_not_seen_count tmp (default tmp output)
                  (order_by keys members) output st1 Hloop) as Hfin.
    rewrite Hrun in Hfin. exact Hfin.
  - injection Hrun as -> _. exact Hloop.
Qed.

(** ** The values written for one block *)

Section block_values.
Variable clip_variables : list string.
Variable c : Field.
Variable es : list Field.
Hypothesis Hc : field_wf c.
Hypothesis Hes : ∀ e, e ∈ es → length (nd_data (to_numpy e)) = nd_size (shape c).

Lemma block_mean_lookup k :
  k < nd_size (shape c) →
  nd_data (block_mean c es) !! k = Some (ensemble_mean es k).
Proof.
  intros Hk. unfold block_mean, ensemble_mean.
  rewrite nd_mean_lookup; [|intros r Hr|done].
  - unfold block_rows. by rewrite <- list_fmap_compose.
  - unfold block_rows in Hr. apply list_elem_of_fmap in Hr as (e & -> & He).
    simpl. by rewrite (Hes e He).
Qed.

Lemma block_mean_length : length (nd_data (block_mean c es)) = nd_size (shape c).
Proof.
  unfold block_mean. apply nd_mean_length. intros r Hr.
  unfold block_rows in Hr. apply list_elem_of_fmap in Hr as (e & -> & He).
  simpl. by apply Hes.
Qed.

Lemma cell_lookup (a : ndarray) k : k < length (nd_data a) → nd_data a !! k = Some (cell a k).
Proof.
  intros Hk. unfold cell. by destruct (lookup_lt_is_Some_2 _ _ Hk) as [v ->].
Qed.

(** The grid [c - m + e] before any clipping. *)
Lemma unclipped_lookup e k :
  e ∈ es → k < nd_size (shape c) →
  nd_data (nd_add (nd_sub (to_numpy c) (block_mean c es)) (block_row c e)) !! k =
    Some (cell (to_numpy c) k - ensemble_mean es k + cell (to_numpy e) k)%Q.
Proof.
  intros He Hk. simpl. rewrite !lookup_zip_with.
  rewrite (cell_lookup (to_numpy c)) by (by rewrite Hc).
  rewrite block_mean_lookup by done.
  rewrite (cell_lookup (to_numpy e)) by (by rewrite (Hes e He)).
  done.
Qed.

Lemma unclipped_length e :
  e ∈ es →
  length (nd_data (nd_add (nd_sub (to_numpy c) (block_mean c es)) (block_row c e))) =
    nd_size (shape c).
Proof.
  intros He. unfold nd_add, nd_sub, nd_zip, block_row. cbn [nd_data nd_shape].
  rewrite !length_zip_with, block_mean_length, (Hes e He).
  unfold field_wf, nd_wf in Hc. fold (shape c) in Hc. lia.
Qed.

Lemma recenter_lookup e k :
  e ∈ es → k < nd_size (shape c) →
  nd_data (recenter clip_variables (get_metadata c "param") (to_numpy c)
             (block_mean c es) (block_row c e)) !! k =
    Some (let x := (cell (to_numpy c) k - ensemble_mean es k + cell (to_numpy e) k)%Q in
          if value_in (get_metadata c "param") clip_variables
          then Qmaximum x 0 else x).
Proof.
  intros He Hk. unfold recenter.
  destruct (value_in (get_metadata c "param") clip_variables).
  - unfold nd_maximum0. cbn [nd_data]. rewrite list_lookup_fmap.
    by rewrite (unclipped_lookup e k He Hk).
  - by apply unclipped_lookup.
Qed.

Lemma recenter_length e :
  e ∈ es →
  length (nd_data (recenter clip_variables (get_metadata c "param") (to_numpy c)
                     (block_mean c es) (block_row c e))) = nd_size (shape c).
Proof.
  intros He. unfold recenter.
  destruct (value_in (get_metadata c "param") clip_variables).
  - unfold nd_maximum0. cbn [nd_data]. rewrite length_fmap. by apply unclipped_length.
  - by apply unclipped_length.
Qed.


(** Without clipping, the mean over the block of the grids written is the
    grid of the center field. *)
Lemma block_writes_mean k :
  value_in (get_metadata c "param") clip_variables = false →
  0 < length es → k < nd_size (shape c) →
  (Qmean ((λ xt : ndarray * Field, cell xt.1 k) <$> block_writes clip_variables c es) ==
   cell (to_numpy c) k)%Q.
Proof.
  intros Hclip Hpos Hk.
  assert (Heq : (λ xt : ndarray * Field, cell xt.1 k) <$> block_writes clip_variables c es =
                (λ e, cell (to_numpy c) k - Qmean ((λ e, cell (to_numpy e) k) <$> es)
                      + cell (to_numpy e) k)%Q <$> es).
  { unfold block_writes. rewrite <- list_fmap_compose.
    apply list_fmap_ext. intros j e Hj. simpl.
    assert (He : e ∈ es) by (by eapply list_elem_of_lookup_2).
    unfold cell at 1. rewrite (recenter_lookup e k He Hk), Hclip. done. }
  rewrite Heq. by apply Qmean_recentered.
Qed.
End block_values.

(** ** Valid input, block by block *)

Lemma blocks_compatibleb_sound ms cs n_numbers bound :
  blocks_compatibleb ms cs n_numbers bound = true →
  blocks_compatible ms cs n_numbers bound.
Proof.
  unfold blocks_compatibleb, blocks_compatible, compatible.
  rewrite forallb_forall. intros Hall p e c Hp He Hc.
  specialize (Hall p). rewrite He, Hc in Hall.
  destruct (check_compatible c e (as_mars c) (as_mars e)); [|done].
  discriminate Hall. apply in_seq. lia.
Qed.

Lemma valid_inputb_sound members center :
  valid_inputb members center = true → valid_input members center.
Proof.
  unfold valid_inputb, valid_input. intros H.
  apply andb_prop in H as [H Hcompat]. apply andb_prop in H as [H Hnd].
  apply andb_prop in H as [Hnone Hlen].
  apply bool_decide_eq_true_1 in Hnone, Hlen, Hnd.
  repeat split; try done. by apply blocks_compatibleb_sound.
Qed.

Lemma take_drop_lookup {A} (l : list A) a n j :
  j < n → take n (drop a l) !! j = l !! (a + j).
Proof. intros Hj. by rewrite lookup_take_lt, lookup_drop. Qed.

Lemma valid_input_block tmp members center clip output i c :
  let n_numbers := length (unique_values "number" members) in
  let ms := order_by keys members in
  let cs := order_by keys center in
  valid_input members center →
  Forall field_wf members → Forall field_wf center →
  cs !! i = Some c →
  ∃ r st,
    perturbations tmp members center clip output initial = (Return r, st) ∧
    take n_numbers (drop (i * n_numbers) (writes (trace st))) =
      block_writes clip c (block ms n_numbers i) ∧
    length (block ms n_numbers i) = n_numbers ∧
    field_wf c ∧
    ∀ e, e ∈ block ms n_numbers i →
         length (nd_data (to_numpy e)) = nd_size (shape c).
Proof.
  intros n_numbers ms cs Hvalid Hwfm Hwfc Hc.
  pose proof (valid_input_length _ _ Hvalid) as Hlen. fold n_numbers ms cs in Hlen.
  destruct (valid_input_run tmp members center clip output Hvalid)
    as (st & Hrun & HW & _). fold n_numbers ms cs in HW.
  destruct Hvalid as (_ & _ & _ & Hcompat). fold n_numbers ms cs in Hcompat.
  pose proof (lookup_lt_Some _ _ _ Hc) as Hi.
  pose proof (block_length ms cs n_numbers Hlen i Hi) as Hblk.
  assert (Hwfm' : Forall field_wf ms) by (unfold ms; by rewrite order_by_Permutation).
  assert (Hwfc' : Forall field_wf cs) by (unfold cs; by rewrite order_by_Permutation).
  eexists _, st. split; [exact Hrun|]. split; [|split; [done|split]].
  - rewrite HW. apply list_eq. intros j.
    destruct (decide (j < n_numbers)) as [Hj|Hj].
    + rewrite take_drop_lookup by done.
      by rewrite (all_writes_lookup ms cs n_numbers clip Hlen cs 0 i c j).
    + rewrite lookup_take_ge by lia. symmetry. apply lookup_ge_None.
      rewrite block_writes_length. lia.
  - rewrite Forall_forall in Hwfc'. apply Hwfc'. by eapply list_elem_of_lookup_2.
  - intros e He. apply elem_of_block in He as (j & Hj & He).
    assert (Hce : compatible c e).
    { apply (Hcompat (i * n_numbers + j) e c); [by eapply lookup_lt_Some | done |].
      rewrite Nat.add_comm, Nat.div_add by lia. by rewrite Nat.div_small. }
    rewrite <- (compatible_shape c e Hce).
    rewrite Forall_forall in Hwfm'. apply Hwfm'. by eapply list_elem_of_lookup_2.
Qed.

(** * The properties of the specification *)

(** ** Preconditions *)

(** C8. When the member number of some member field is unset ([None]),
    [perturbations] fails with the assertion error of line 69 and nothing
    has happened yet: the trace is empty, so no collection was ordered, no
    grid was read and nothing was written. *)
Theorem perturbations_unset_number tmp members center clip output :
  (∃ f, f ∈ members ∧ get_metadata f "number" = VNone) →
  ∃ st,
    perturbations tmp members center clip output initial =
      (Raise (AssertionError ANumberUnset), st) ∧
    trace st = [] ∧ reads (trace st) = [] ∧ writes (trace st) = [].
Proof.
  intros Hex. exists (State [] ∅). split; [|done].
  by apply unset_number_run.
Qed.

Lemma perturbations_unset_number_witness :
  let f := sample_field "t" 500 None [0; 0]%Q in
  (∃ f', f' ∈ [f] ∧ get_metadata f' "number" = VNone) ∧
  ∃ st,
    perturbations "tmp" [f] [f] CLIP_VARIABLES None initial =
      (Raise (AssertionError ANumberUnset), st) ∧
    trace st = [] ∧ reads (trace st) = [] ∧ writes (trace st) = [].
Proof.
  intros f.
  assert (H : ∃ f', f' ∈ [f] ∧ get_metadata f' "number" = VNone).
  { exists f. split; [apply list_elem_of_here | vm_compute; reflexivity]. }
  split; [exact H|].
  exact (perturbations_unset_number "tmp" [f] [f] CLIP_VARIABLES None H).
Defined.

(** C6, as the code has it. With an unset member number the assertion of
    line 69 comes first: there the counts disagree and no [ValueError] is
    raised. *)
Lemma count_mismatch_after_unset_number :
  let f := sample_field "t" 500 None [0; 0]%Q in
  length ([] : list Field) * length (unique_values "number" [f]) ≠ length [f] ∧
  perturbations "tmp" [f] [] CLIP_VARIABLES None initial =
    (Raise (AssertionError ANumberUnset), State [] ∅).
Proof. split; [vm_compute; lia | vm_compute; reflexivity]. Qed.

(** C6, amended. When no member number is unset and
    [len(center) * n_numbers != len(members)], [perturbations] raises the
    count-mismatch [ValueError]; by then it has logged the three counts,
    every member field and every center field, and it has read no grid and
    written nothing. *)
Theorem perturbations_count_mismatch tmp members center clip output :
  let n_numbers := length (unique_values "number" members) in
  let ms := order_by keys members in
  let cs := order_by keys center in
  VNone ∉ unique_values "number" members →
  length center * n_numbers ≠ length members →
  ∃ st,
    perturbations tmp members center clip output initial =
      (Raise (ValueError (length center) n_numbers (length members)), st) ∧
    trace st = ordering_trace members center ++
               EvLogErrorCounts (length center) n_numbers (length members) ::
               map EvLogErrorMember ms ++ map EvLogErrorCenter cs ∧
    writes (trace st) = [] ∧ reads (trace st) = [].
Proof.
  intros n_numbers ms cs Hnone Hlen.
  eexists. split; [by apply count_mismatch_run|].
  cbn [trace]. split; [done|].
  change (EvLogErrorCounts ?a ?b ?c :: ?l) with ([EvLogErrorCounts a b c] ++ l).
  split.
  - rewrite !writes_app, writes_log_members, writes_log_center. reflexivity.
  - rewrite !reads_app, reads_log_members, reads_log_center. reflexivity.
Qed.

Lemma perturbations_count_mismatch_witness :
  let members := [sample_field "t" 500 (Some 1%Z) [1; 2]%Q] in
  let center := sample_center "t" ++ sample_center "t" in
  ∃ st,
    perturbations "tmp" members center CLIP_VARIABLES None initial =
      (Raise (ValueError 2 1 1), st) ∧
    trace st = ordering_trace members center ++
               EvLogErrorCounts 2 1 1 ::
               map EvLogErrorMember (order_by keys members) ++
               map EvLogErrorCenter (order_by keys center) ∧
    writes (trace st) = [] ∧ reads (trace st) = [].
Proof.
  intros members center.
  apply (perturbations_count_mismatch "tmp" members center CLIP_VARIABLES None).
  - vm_compute. intros H. apply list_elem_of_singleton in H. discriminate H.
  - vm_compute. lia.
Defined.


(** ** The output *)



(** C9. Once the count check has passed, whenever the loop over the center
    fields completes, [seen] has exactly [len(members)] elements; so the
    assertion of line 144 holds and [perturbations] never raises its
    error. *)
Theorem seen_count_assertion_holds tmp members center clip output :
  let n_numbers := length (unique_values "number" members) in
  let ms := order_by keys members in
  let cs := order_by keys center in
  length center * n_numbers = length members →
  (∀ st, for_enum 0 cs (recenter_block ms n_numbers clip)
           (loop_start tmp members center output) = (Return tt, st) →
         size (seen st) = length ms) ∧
  (∀ a b st, perturbations tmp members center clip output initial ≠
               (Raise (AssertionError (ASeen a b)), st)).
Proof.
  intros n_numbers ms cs Hlen. split.
  - intros st Hrun.
    assert (Hlen' : length cs * n_numbers = length ms)
      by (unfold cs, ms; by rewrite !order_by_length).
    pose proof (center_loop_seen_size ms cs n_numbers clip Hlen'
                  (loop_start tmp members center output) eq_refl) as Hloop.
    by rewrite Hrun in Hloop.
  - intros a b st. apply seen_count_never_raised.
Qed.

Lemma seen_count_assertion_holds_witness :
  let members := sample_members "t" in
  let center := sample_center "t" in
  length center * length (unique_values "number" members) = length members ∧
  (∀ st, for_enum 0 (order_by keys center)
           (recenter_block (order_by keys members)
              (length (unique_values "number" members)) CLIP_VARIABLES)
           (loop_start "tmp" members center None) = (Return tt, st) →
         size (seen st) = length (order_by keys members)) ∧
  (∀ a b st, perturbations "tmp" members center CLIP_VARIABLES None initial ≠
               (Raise (AssertionError (ASeen a b)), st)).
Proof.
  intros members center.
  assert (H : length center * length (unique_values "number" members) = length members)
    by (vm_compute; reflexivity).
  split; [exact H|].
  exact (seen_count_assertion_holds "tmp" members center CLIP_VARIABLES None H).
Defined.
(** ** The recentering transform *)

(** C1. On valid input, for the center field [c] at position [i] and the
    member index [j], when the parameter of [c] is not in the clip set: the
    array written at position [i * n_numbers + j], with the ensemble field
    [members[i * n_numbers + j]] as template, has the shape of [c] and holds
    at every gridpoint [k] the value [c[k] - m[k] + e[k]], where [m[k]] is
    the arithmetic mean at [k] over the [n_numbers] grids of block [i]. *)
Theorem recentering_formula tmp members center clip output i j c e :
  let n_numbers := length (unique_values "number" members) in
  let ms := order_by keys members in
  let cs := order_by keys center in
  valid_input members center →
  Forall field_wf members → Forall field_wf center →
  cs !! i = Some c → j < n_numbers → ms !! (i * n_numbers + j) = Some e →
  value_in (get_metadata c "param") clip = false →
  ∃ r st x,
    perturbations tmp members center clip output initial = (Return r, st) ∧
    writes (trace st) !! (i * n_numbers + j) = Some (x, e) ∧
    nd_shape x = shape c ∧
    length (nd_data x) = nd_size (shape c) ∧
    ∀ k, k < nd_size (shape c) →
      nd_data x !! k =
        Some (cell (to_numpy c) k - ensemble_mean (block ms n_numbers i) k
              + cell (to_numpy e) k)%Q.
Proof.
  intros n_numbers ms cs Hvalid Hwfm Hwfc Hc Hj He Hclip.
  destruct (valid_input_block tmp members center clip output i c Hvalid Hwfm Hwfc Hc)
    as (r & st & Hrun & Hblock & Hlen & Hwf & Hes).
  fold n_numbers ms cs in Hblock, Hlen, Hes.
  assert (Hin : block ms n_numbers i !! j = Some e).
  { unfold block. by rewrite take_drop_lookup. }
  assert (Hmem : e ∈ block ms n_numbers i) by (by eapply list_elem_of_lookup_2).
  exists r, st, (recenter clip (get_metadata c "param") (to_numpy c)
                   (block_mean c (block ms n_numbers i)) (block_row c e)).
  split; [exact Hrun|]. split; [|split; [|split]].
  - rewrite <- (take_drop_lookup _ _ n_numbers) by done.
    rewrite Hblock. unfold block_writes. by rewrite list_lookup_fmap, Hin.
  - apply recenter_shape.
  - by apply recenter_length.
  - intros k Hk. rewrite (recenter_lookup clip c _ Hwf Hes e k Hmem Hk), Hclip. done.
Qed.

Lemma recentering_formula_witness :
  let members := sample_members "t" in
  let center := sample_center "t" in
  let c := sample_field "t" 500 None [0; 0]%Q in
  let e := sample_field "t" 500 (Some 1%Z) [1; 2]%Q in
  ∃ r st x,
    perturbations "tmp" members center CLIP_VARIABLES None initial = (Return r, st) ∧
    writes (trace st) !! 0 = Some (x, e) ∧
    nd_shape x = shape c ∧
    length (nd_data x) = nd_size (shape c) ∧
    ∀ k, k < nd_size (shape c) →
      nd_data x !! k =
        Some (cell (to_numpy c) k
              - ensemble_mean (block (order_by keys members) 2 0) k
              + cell (to_numpy e) k)%Q.
Proof.
  intros members center c e.
  apply (recentering_formula "tmp" members center CLIP_VARIABLES None 0 0 c e).
  - apply valid_inputb_sound. vm_compute. reflexivity.
  - repeat constructor.
  - repeat constructor.
  - vm_compute. reflexivity.
  - vm_compute. lia.
  - vm_compute. reflexivity.
  - vm_compute. reflexivity.
Defined.



(** C4, as the code has it. For a parameter in the clip set the mean of
    the block written is not the center field: with center [0; 0] and members
    [1; 2] and [3; -4] of parameter [tp], the sink receives [0; 3] and
    [1; 0], whose mean at the first gridpoint is 1/2. *)
Lemma mean_not_preserved_when_clipped :
  ∃ r st,
    perturbations "tmp" (sample_members "tp") (sample_center "tp")
      CLIP_VARIABLES None initial = (Return r, st) ∧
    ¬ (Qmean ((λ xt : ndarray * Field, cell xt.1 0) <$>
               take 2 (drop (0 * 2) (writes (trace st)))) ==
       cell (to_numpy (sample_field "tp" 500 None [0; 0]%Q)) 0)%Q.
Proof.
  assert (H : match perturbations "tmp" (sample_members "tp") (sample_center "tp")
                      CLIP_VARIABLES None initial with
              | (Return _, st) =>
                  ¬ (Qmean ((λ xt : ndarray * Field, cell xt.1 0) <$>
                             take 2 (drop (0 * 2) (writes (trace st)))) ==
                     cell (to_numpy (sample_field "tp" 500 None [0; 0]%Q)) 0)%Q
              | (Raise _, _) => False
              end).
  { vm_compute. discriminate. }
  destruct (perturbations _ _ _ _ _ _) as [[r|err] st]; [|done].
  by exists r, st.
Qed.

(** C4, amended. On valid input, for a block of [n_numbers >= 1] members
    whose parameter is not in the clip set, the arithmetic mean at every
    gridpoint over the [n_numbers] arrays written for the block equals the
    value of the center field at that gridpoint. *)
Theorem mean_preserved tmp members center clip output i c :
  let n_numbers := length (unique_values "number" members) in
  let cs := order_by keys center in
  valid_input members center →
  Forall field_wf members → Forall field_wf center →
  cs !! i = Some c → 0 < n_numbers →
  value_in (get_metadata c "param") clip = false →
  ∃ r st,
    perturbations tmp members center clip output initial = (Return r, st) ∧
    let outs := take n_numbers (drop (i * n_numbers) (writes (trace st))) in
    length outs = n_numbers ∧
    ∀ k, k < nd_size (shape c) →
      (Qmean ((λ xt : ndarray * Field, cell xt.1 k) <$> outs) ==
       cell (to_numpy c) k)%Q.
Proof.
  intros n_numbers cs Hvalid Hwfm Hwfc Hc Hpos Hclip.
  destruct (valid_input_block tmp members center clip output i c Hvalid Hwfm Hwfc Hc)
    as (r & st & Hrun & Hblock & Hlen & Hwf & Hes).
  fold n_numbers cs in Hblock, Hlen, Hes.
  exists r, st. split; [exact Hrun|]. simpl. rewrite Hblock. split.
  - by rewrite block_writes_length.
  - intros k Hk. apply block_writes_mean; try done. by rewrite Hlen.
Qed.

Lemma mean_preserved_witness :
  let c := sample_field "t" 500 None [0; 0]%Q in
  ∃ r st,
    perturbations "tmp" (sample_members "t") (sample_center "t")
      CLIP_VARIABLES None initial = (Return r, st) ∧
    let outs := take 2 (drop (0 * 2) (writes (trace st))) in
    length outs = 2 ∧
    ∀ k, k < nd_size (shape c) →
      (Qmean ((λ xt : ndarray * Field, cell xt.1 k) <$> outs) ==
       cell (to_numpy c) k)%Q.
Proof.
  intros c.
  apply (mean_preserved "tmp" (sample_members "t") (sample_center "t")
           CLIP_VARIABLES None 0 c).
  - apply valid_inputb_sound. vm_compute. reflexivity.
  - repeat constructor.
  - repeat constructor.
  - vm_compute. reflexivity.
  - vm_compute. lia.
  - vm_compute. reflexivity.
Defined.

(** ** Duplicates *)

(** C7. Every ensemble field that reaches line 112 (it exists and has
    passed [check_compatible]) has its canonical key set tested against
    [seen] before it is added: when the key set is in [seen] the round
    raises the assertion error of line 113, leaves [seen] as it is and
    writes nothing; otherwise the key set is added. So when the ensemble
    field at position [q] is the first whose key set repeats an earlier one,
    and the fields up to [q] pass [check_compatible], [perturbations] raises
    that assertion error carrying the key set; the sink has then received
    the [(q / n_numbers) * n_numbers <= q] arrays of the blocks before the
    one of [q], and nothing for position [q]. *)
Theorem duplicate_rejected tmp members center clip output q e :
  let n_numbers := length (unique_values "number" members) in
  let ms := order_by keys members in
  let cs := order_by keys center in
  VNone ∉ unique_values "number" members →
  length center * n_numbers = length members →
  blocks_compatible ms cs n_numbers (S q) →
  NoDup (canon <$> take q ms) →
  ms !! q = Some e →
  canon e ∈ canon <$> take q ms →
  (∀ st i c c_np j rows e',
     ms !! (i * n_numbers + j) = Some e' → compatible c e' →
     ∃ st', writes (trace st') = writes (trace st) ∧
       if bool_decide (canon e' ∈ seen st)
       then load_member ms n_numbers i c c_np j rows st =
              (Raise (AssertionError (ADuplicate (canon e'))), st') ∧
            seen st' = seen st
       else ∃ rows',
            load_member ms n_numbers i c c_np j rows st = (Return rows', st') ∧
            seen st' = {[canon e']} ∪ seen st) ∧
  ∃ st,
    perturbations tmp members center clip output initial =
      (Raise (AssertionError (ADuplicate (canon e))), st) ∧
    writes (trace st) = all_writes clip ms n_numbers 0 (take (q / n_numbers) cs) ∧
    length (writes (trace st)) = q / n_numbers * n_numbers ∧
    q / n_numbers * n_numbers ≤ q.
Proof.
  intros n_numbers ms cs Hnone Hlen Hcompat Hnd He Hdup. split.
  { intros st i c c_np j rows e' He' Hce.
    rewrite (load_member_run ms n_numbers i c c_np j rows st e' He').
    unfold compatible in Hce. rewrite Hce.
    exists (State (trace st ++ [EvToNumpy e'])
                  (if bool_decide (canon e' ∈ seen st) then seen st
                   else {[canon e']} ∪ seen st)).
    cbn [trace seen]. rewrite writes_app. simpl. rewrite app_nil_r.
    split; [done|]. case_bool_decide; [done|]. by eexists. }
  assert (Hlen' : length cs * n_numbers = length ms)
    by (unfold cs, ms; by rewrite !order_by_length).
  pose proof (lookup_lt_Some _ _ _ He) as Hq.
  rewrite perturbations_unfold by done. fold n_numbers ms cs. rewrite run_bind.
  pose proof (center_loop_run ms cs n_numbers clip Hlen' q) as Hloop.
  specialize (Hloop ltac:(lia)).
  specialize (Hloop ltac:(intros p e' c Hp; apply Hcompat; lia) Hnd).
  specialize (Hloop ltac:(intros e' He'; congruence)).
  specialize (Hloop (loop_start tmp members center output)
                (conj (writes_loop_start _ _ _ _) eq_refl)).
  destruct (for_enum _ _ _ _) as [[[]|err] st1].
  { destruct Hloop as (Hqeq & _). lia. }
  destruct Hloop as (_ & (e' & He' & ->) & HW).
  assert (e' = e) as -> by congruence.
  assert (Hn : n_numbers ≠ 0) by (intros Hz; rewrite Hz in Hlen'; lia).
  assert (Hdiv : q / n_numbers < length cs).
  { apply Nat.Div0.div_lt_upper_bound. lia. }
  exists st1. split; [done|]. split; [done|]. split.
  - rewrite HW, (all_writes_length ms cs n_numbers clip Hlen'), length_take.
    + f_equal. lia.
    + rewrite length_take. simpl. lia.
  - rewrite Nat.mul_comm. by apply Nat.Div0.mul_div_le.
Qed.

(** The same ensemble field fed twice, for two center fields: the first
    block is written, the run stops at the second. *)
Lemma duplicate_rejected_witness :
  let e := sample_field "t" 500 (Some 1%Z) [1; 2]%Q in
  let members := [e; e] in
  let center := sample_center "t" ++ sample_center "t" in
  ∃ st,
    perturbations "tmp" members center CLIP_VARIABLES None initial =
      (Raise (AssertionError (ADuplicate (canon e))), st) ∧
    writes (trace st) =
      all_writes CLIP_VARIABLES (order_by keys members)
        (length (unique_values "number" members)) 0
        (take (1 / length (unique_values "number" members)) (order_by keys center)) ∧
    length (writes (trace st)) =
      1 / length (unique_values "number" members) * length (unique_values "number" members) ∧
    1 / length (unique_values "number" members) * length (unique_values "number" members) ≤ 1.
Proof.
  intros e members center.
  apply (duplicate_rejected "tmp" members center CLIP_VARIABLES None 1 e).
  - apply (bool_decide_unpack _). vm_compute. exact I.
  - vm_compute. reflexivity.
  - apply blocks_compatibleb_sound. vm_compute. reflexivity.
  - apply (bool_decide_unpack _). vm_compute. exact I.
  - vm_compute. reflexivity.
  - apply (bool_decide_unpack _). vm_compute. exact I.
Defined.

(** ** The compatibility check *)

(** C5, as the code has it. The keys are taken from the union of the two
    key sets: a key outside [SKIP] that only the ensemble field has makes
    the check fail with a [KeyError], although the keys the two fields share
    agree. *)
Lemma check_compatible_unshared_key :
  let f := sample_field "t" 500 (Some 1%Z) [1; 2]%Q in
  let cm : gmap string value := {[ "param" := VStr "t" ]} in
  let em : gmap string value := {[ "param" := VStr "t"; "levtype" := VStr "sfc" ]} in
  claimed_compatible f f cm em ∧
  check_compatible f f cm em = Some (KeyError "levtype").
Proof.
  intros f cm em. split; [split|].
  - by repeat split.
  - intros k v1 v2 _ H1 H2. unfold cm in H1.
    apply lookup_singleton_Some in H1 as [<- <-].
    vm_compute in H2. congruence.
  - vm_compute. reflexivity.
Qed.

(** C5, amended. [check_compatible] succeeds if and only if the two fields
    have the same grid descriptor, area, shape and valid timestamp, and every
    key outside [SKIP] that is in either key set is in both with equal
    values. Otherwise it raises at the first check that fails, in the order
    grid, area, shape, timestamp, keys: an assertion error carrying the two
    values that differ (for a key, the key and its two values), or a
    [KeyError] for a key that one of the two key sets lacks. *)
Theorem check_compatible_spec f1 f2 cm em :
  (check_compatible f1 f2 cm em = None ↔ fields_agree f1 f2 ∧ keys_agree cm em) ∧
  (∀ err, check_compatible f1 f2 cm em = Some err → violation f1 f2 cm em err).
Proof.
  split.
  - apply check_compatible_None.
  - intros err. apply check_compatible_Some.
Qed.

(** * Further properties of the run *)

(** ** The trace of the loop over the center fields *)

Lemma writes_reads_events (l : list Field) : writes (EvToNumpy <$> l) = [].
Proof. induction l; simpl; auto. Qed.

Lemma writes_write_events (l : list (ndarray * Field)) : writes (write_event <$> l) = l.
Proof. induction l as [|[x t] l IH]; [done|]. cbn. f_equal. exact IH. Qed.

Lemma reads_reads_events (l : list Field) : reads (EvToNumpy <$> l) = l.
Proof. induction l as [|f l IH]; [done|]. cbn. f_equal. exact IH. Qed.

Lemma reads_write_events (l : list (ndarray * Field)) : reads (write_event <$> l) = [].
Proof. induction l; simpl; auto. Qed.

Lemma writes_block_trace clip c es : writes (block_trace clip c es) = block_writes clip c es.
Proof.
  unfold block_trace. change (EvToNumpy c :: ?l) with ([EvToNumpy c] ++ l).
  rewrite !writes_app, writes_reads_events, writes_write_events. done.
Qed.

Lemma reads_block_trace clip c es : reads (block_trace clip c es) = c :: es.
Proof.
  unfold block_trace. change (EvToNumpy c :: ?l) with ([EvToNumpy c] ++ l).
  rewrite !reads_app, reads_reads_events, reads_write_events. simpl.
  by rewrite app_nil_r.
Qed.

Lemma writes_loop_trace clip ms n i cs :
  writes (loop_trace clip ms n i cs) = all_writes clip ms n i cs.
Proof.
  revert i. induction cs as [|c cs IH]; intros i; cbn [loop_trace all_writes]; [done|].
  by rewrite writes_app, writes_block_trace, IH.
Qed.

Lemma loop_trace_snoc clip ms n i l c :
  loop_trace clip ms n i (l ++ [c]) =
  loop_trace clip ms n i l ++ block_trace clip c (block ms n (i + length l)).
Proof.
  revert i. induction l as [|c' l IH]; intros i; cbn [loop_trace app length].
  - by rewrite app_nil_r, Nat.add_0_r.
  - rewrite IH, <- app_assoc. replace (S i + length l) with (i + S (length l)) by lia.
    done.
Qed.

Section stops.
(** The ordered collections, once the count check has passed, and the
    number [q] of members that are accepted before the first rejection
    ([len(members)] when every member is accepted). *)
Variable members center : list Field.
Variable n_numbers : nat.
Variable clip_variables : list string.
Hypothesis Hlen : length center * n_numbers = length members.
Variable q : nat.
Hypothesis Hq : q ≤ length members.
Hypothesis Hgood : blocks_compatible members center n_numbers q.
Hypothesis Hnodup : NoDup (canon <$> take q members).
Hypothesis Hstop : q < length members → rejected_at members center n_numbers q.

Lemma load_block_trace i c T :
  center !! i = Some c →
  hoare
    (λ st, trace st = T ∧
           seen st = list_to_set (canon <$> take (i * n_numbers) members) ∧
           i * n_numbers ≤ q)
    (for_fold (seq 0 n_numbers) (replicate n_numbers (nd_zeros (shape c)))
       (load_member members n_numbers i c (to_numpy c)))
    (λ rows st, rows = block_rows c (block members n_numbers i) ∧
           trace st = T ++ (EvToNumpy <$> block members n_numbers i) ∧
           seen st = list_to_set (canon <$> take (S i * n_numbers) members) ∧
           S i * n_numbers ≤ q)
    (λ err st, q < length members ∧ (q / n_numbers)%nat = i ∧
           ∃ e, members !! q = Some e ∧ err = member_error c e ∧
                trace st = T ++ (EvToNumpy <$> take (q - i * n_numbers)
                                                 (block members n_numbers i))
                             ++ rejected_read c e).
Proof.
  intros Hc.
  assert (Hi : i < length center) by (by eapply lookup_lt_Some).
  set (I := λ (k : nat) (rows : list ndarray) (st : state),
         trace st = T ++ (EvToNumpy <$> take k (block members n_numbers i)) ∧
         seen st = list_to_set (canon <$> take (i * n_numbers + k) members) ∧
         i * n_numbers + k ≤ q ∧ length rows = n_numbers ∧
         take k rows = block_rows c (take k (block members n_numbers i))).
  set (E := λ (err : exn) (st : state),
         q < length members ∧ (q / n_numbers)%nat = i ∧
         ∃ e, members !! q = Some e ∧ err = member_error c e ∧
              trace st = T ++ (EvToNumpy <$> take (q - i * n_numbers)
                                               (block members n_numbers i))
                           ++ rejected_read c e).
  assert (Hstep : ∀ k j rows, seq 0 n_numbers !! k = Some j →
            hoare (I k rows) (load_member members n_numbers i c (to_numpy c) j rows)
                  (I (S k)) E).
  { intros k j rows Hk. apply lookup_seq in Hk as [-> Hk]. simpl.
    intros st (HT & Hseen & Hle & Hrows & Htake).
    pose proof (member_in_range members center n_numbers Hlen i k Hi Hk) as Hp.
    destruct (lookup_lt_is_Some_2 members _ Hp) as [e He].
    rewrite (load_member_run _ _ _ _ _ _ _ _ e He).
    assert (Hdiv : ((i * n_numbers + k) / n_numbers)%nat = i).
    { rewrite Nat.add_comm, Nat.div_add by lia. rewrite Nat.div_small by done. done. }
    destruct (decide (i * n_numbers + k = q)) as [Heq|Hne].
    - assert (Hqlt : q < length members) by lia.
      destruct (Hstop Hqlt) as (e' & c' & He' & Hc' & Hrej).
      rewrite <- Heq in He'. rewrite <- Heq, Hdiv in Hc'.
      assert (e' = e) as -> by congruence. assert (c' = c) as -> by congruence.
      assert (Hk' : q - i * n_numbers = k) by lia.
      unfold E, member_error, rejected_read. rewrite Hk'.
      destruct (check_compatible c e (as_mars c) (as_mars e)) as [err|] eqn:Hchk.
      + split; [done|]. split; [by rewrite <- Heq|].
        exists e. rewrite <- Heq, Hchk. split; [done|]. split; [done|].
        by rewrite app_nil_r.
      + destruct Hrej as [Hrej|Hrej]; [done|].
        rewrite bool_decide_true by (by rewrite Hseen, elem_of_list_to_set, Heq).
        split; [done|]. split; [by rewrite <- Heq|].
        exists e. rewrite <- Heq, Hchk. split; [done|]. split; [done|].
        cbn [trace]. by rewrite HT, <- app_assoc.
    - assert (Hlt : i * n_numbers + k < q) by lia.
      rewrite (Hgood _ e c Hlt He) by (by rewrite Hdiv).
      assert (Hfresh : canon e ∉ canon <$> take (i * n_numbers + k) members).
      { replace (take (i * n_numbers + k) members)
          with (take (i * n_numbers + k) (take q members))
          by (rewrite take_take; f_equal; lia).
        rewrite fmap_take. apply NoDup_lookup_not_in_take; [done|].
        rewrite list_lookup_fmap, lookup_take_lt by done. by rewrite He. }
      rewrite bool_decide_false by (by rewrite Hseen, elem_of_list_to_set).
      unfold I. cbn [trace seen].
      rewrite (take_block_snoc members n_numbers i k e Hk He).
      split; [by rewrite HT, fmap_app, <- app_assoc|]. split.
      { replace (i * n_numbers + S k)%nat with (S (i * n_numbers + k)) by lia.
        rewrite (take_S_r _ _ _ He), fmap_app, list_to_set_app_L, Hseen. simpl.
        rewrite (right_id_L ∅ (∪)). apply (comm_L (∪)). }
      split; [lia|]. split; [by rewrite length_insert|].
      unfold block_rows. rewrite fmap_app.
      fold (block_rows c (take k (block members n_numbers i))). rewrite <- Htake.
      simpl. rewrite take_S_r with (x := block_row c e).
      + f_equal. apply take_insert_ge. lia.
      + rewrite list_lookup_insert_eq by lia. done.
  }
  eapply hoare_conseq; [exact (hoare_for_fold I E _ _ _ Hstep) | ..].
  - intros st (HT & Hseen & Hle). unfold I. rewrite Nat.add_0_r.
    repeat split; auto. { simpl. by rewrite app_nil_r. } by rewrite length_replicate.
  - intros rows st (HT & Hseen & Hle & Hrows & Htake).
    rewrite length_seq in *.
    replace (S i * n_numbers)%nat with (i * n_numbers + n_numbers)%nat by lia.
    pose proof (block_length members center n_numbers Hlen i Hi) as Hblk.
    rewrite <- Hblk, firstn_all in HT at 1.
    repeat split; auto.
    rewrite <- (firstn_all rows), Hrows, Htake.
    f_equal. rewrite <- Hblk at 1. apply firstn_all.
  - intros err st H. exact H.
Qed.

Lemma write_block_trace i c T seen0 :
  center !! i = Some c →
  hoare
    (λ st, trace st = T ∧ seen st = seen0)
    (for_each (seq 0 n_numbers)
       (write_member members n_numbers clip_variables i (get_metadata c "param")
          (to_numpy c) (block_mean c (block members n_numbers i))
          (block_rows c (block members n_numbers i))))
    (λ _ st, trace st =
               T ++ (write_event <$>
                     block_writes clip_variables c (block members n_numbers i)) ∧
             seen st = seen0)
    (λ _ _, False).
Proof.
  intros Hc.
  assert (Hi : i < length center) by (by eapply lookup_lt_Some).
  set (bw := block_writes clip_variables c (block members n_numbers i)).
  assert (Hbw : length bw = n_numbers).
  { unfold bw, block_writes.
    by rewrite length_fmap, (block_length members center n_numbers Hlen). }
  set (I := λ (k : nat) (st : state),
         trace st = T ++ (write_event <$> take k bw) ∧ seen st = seen0).
  assert (Hstep : ∀ k j, seq 0 n_numbers !! k = Some j →
            hoare (I k)
              (write_member members n_numbers clip_variables i (get_metadata c "param")
                 (to_numpy c) (block_mean c (block members n_numbers i))
                 (block_rows c (block members n_numbers i)) j)
              (λ _, I (S k)) (λ _ _, False)).
  { intros k j Hk. apply lookup_seq in Hk as [-> Hk]. simpl.
    intros st (HT & Hseen).
    pose proof (member_in_range members center n_numbers Hlen i k Hi Hk) as Hp.
    destruct (lookup_lt_is_Some_2 members _ Hp) as [e He].
    assert (Hblk : block members n_numbers i !! k = Some e)
      by (by rewrite block_lookup).
    rewrite (write_member_run _ _ _ _ _ _ _ _ _ _ e (block_row c e) He).
    - unfold I. cbn [trace seen]. split; [|done].
      rewrite HT, <- app_assoc. f_equal.
      rewrite (take_S_r bw k (recenter clip_variables (get_metadata c "param")
                                (to_numpy c) (block_mean c (block members n_numbers i))
                                (block_row c e), e)).
      + by rewrite fmap_app.
      + unfold bw, block_writes. by rewrite list_lookup_fmap, Hblk.
    - unfold block_rows. by rewrite list_lookup_fmap, Hblk.
    - done.
    - done. }
  eapply hoare_conseq; [exact (hoare_for_each I _ _ _ Hstep) | ..].
  - intros st (HT & Hseen). unfold I. simpl. by rewrite app_nil_r.
  - intros [] st (HT & Hseen). rewrite length_seq in HT.
    rewrite <- Hbw, firstn_all in HT. done.
  - done.
Qed.

Lemma recenter_block_trace i c T :
  center !! i = Some c →
  hoare
    (λ st, trace st = T ∧
           seen st = list_to_set (canon <$> take (i * n_numbers) members) ∧
           i * n_numbers ≤ q)
    (recenter_block members n_numbers clip_variables i c)
    (λ _ st, trace st =
               T ++ block_trace clip_variables c (block members n_numbers i) ∧
             seen st = list_to_set (canon <$> take (S i * n_numbers) members) ∧
             S i * n_numbers ≤ q)
    (λ err st, q < length members ∧ (q / n_numbers)%nat = i ∧
           ∃ e, members !! q = Some e ∧ err = member_error c e ∧
                trace st = T ++ EvToNumpy c ::
                             (EvToNumpy <$> take (q - i * n_numbers)
                                              (block members n_numbers i))
                             ++ rejected_read c e).
Proof.
  intros Hc st (HT & Hseen & Hle).
  unfold recenter_block. rewrite run_bind. unfold read_numpy.
  rewrite run_bind. unfold emit at 1. rewrite run_ret, run_bind.
  set (st1 := State (trace st ++ [EvToNumpy c]) (seen st)).
  pose proof (load_block_trace i c (T ++ [EvToNumpy c]) Hc st1) as Hload.
  fold (shape c).
  destruct (for_fold _ _ _ st1) as [[rows|err] st2].
  - destruct Hload as (-> & HT2 & Hseen2 & Hle2).
    { unfold st1. cbn [trace seen]. by rewrite HT. }
    fold (block_mean c (block members n_numbers i)).
    pose proof (write_block_trace i c _ _ Hc st2 (conj HT2 eq_refl)) as Hwrite.
    destruct (for_each _ _ st2) as [[[]|err] st3]; [|done].
    destruct Hwrite as [HT3 Hseen3]. rewrite Hseen3, HT3. unfold block_trace.
    split; [|done]. rewrite <- !app_assoc. done.
  - destruct Hload as (Hlt & Hdiv & e & He & Herr & HT2).
    { unfold st1. cbn [trace seen]. by rewrite HT. }
    split; [done|]. split; [done|]. exists e. split; [done|]. split; [done|].
    rewrite HT2, <- !app_assoc. done.
Qed.

Lemma center_loop_trace T :
  hoare
    (λ st, trace st = T ∧ seen st = ∅)
    (for_enum 0 center (recenter_block members n_numbers clip_variables))
    (λ _ st, q = length members ∧
             trace st = T ++ loop_trace clip_variables members n_numbers 0 center ∧
             seen st = list_to_set (canon <$> members))
    (λ err st, q < length members ∧
             ∃ e c, members !! q = Some e ∧ center !! (q / n_numbers) = Some c ∧
                    err = member_error c e ∧
                    trace st = T ++ stopped_trace clip_variables members center
                                      n_numbers q c e).
Proof.
  set (I := λ (i : nat) (st : state),
         trace st = T ++ loop_trace clip_variables members n_numbers 0 (take i center) ∧
         seen st = list_to_set (canon <$> take (i * n_numbers) members) ∧
         i * n_numbers ≤ q).
  set (E := λ (err : exn) (st : state),
         q < length members ∧
         ∃ e c, members !! q = Some e ∧ center !! (q / n_numbers) = Some c ∧
                err = member_error c e ∧
                trace st = T ++ stopped_trace clip_variables members center
                                  n_numbers q c e).
  assert (Hstep : ∀ k c, center !! k = Some c →
            hoare (I (0 + k)) (recenter_block members n_numbers clip_variables (0 + k) c)
                  (λ _, I (S (0 + k))) E).
  { intros k c Hc. simpl.
    pose proof (lookup_lt_Some _ _ _ Hc) as Hk.
    eapply hoare_conseq;
      [exact (recenter_block_trace k c
                (T ++ loop_trace clip_variables members n_numbers 0 (take k center)) Hc) | ..].
    - intros st H. exact H.
    - intros [] st (HT & Hseen & Hle). unfold I.
      rewrite (take_S_r _ _ _ Hc), loop_trace_snoc, length_take.
      replace (0 + k `min` length center) with k by lia.
      by rewrite HT, <- app_assoc.
    - intros err st (Hlt & Hdiv & e & He & Herr & HT). unfold E.
      split; [done|]. exists e, c. rewrite Hdiv.
      split; [done|]. split; [done|]. split; [done|].
      unfold stopped_trace. rewrite Hdiv, HT, <- app_assoc. done. }
  eapply hoare_conseq; [exact (hoare_for_enum I E _ _ _ Hstep) | ..].
  - intros st (HT & Hseen). unfold I. simpl. rewrite app_nil_r. repeat split; [done|done|lia].
  - intros [] st (HT & Hseen & Hle). simpl in *.
    rewrite firstn_all in HT.
    assert (q = length members) as Hqeq by lia.
    rewrite Hlen, firstn_all in Hseen. done.
  - done.
Qed.
End stops.

(** ** The ways a run ends *)

Lemma finalize_trace_run tmp ms output st :
  size (seen st) = length ms →
  length (writes (trace st)) = length ms →
  finalize tmp (default tmp output) ms output st =
    (Return match output with
            | Some p => RPath p
            | None => RDataset ((λ xt, with_values xt.2 xt.1) <$> writes (trace st)) tmp
            end,
     State (trace st ++ finalize_trace tmp output) (seen st)).
Proof.
  intros Hsize Hw. unfold finalize, finalize_trace.
  rewrite run_bind. unfold get_seen at 1. rewrite run_bind. unfold assert at 1.
  rewrite bool_decide_true by done. rewrite run_ret, run_bind. unfold emit at 1.
  destruct output as [p|]; [done|].
  unfold load_source. rewrite run_bind, run_bind. unfold emit at 1.
  rewrite run_bind. unfold get_trace at 1. cbn [trace seen default]. rewrite run_ret.
  unfold assert_is_fieldset. rewrite run_bind, run_ret, run_bind.
  assert (Hws : writes ((trace st ++ [EvClose]) ++ [EvLoadSource tmp]) = writes (trace st)).
  { rewrite !writes_app. simpl. by rewrite !app_nil_r. }
  rewrite Hws. unfold assert. rewrite length_fmap.
  rewrite bool_decide_true by done. rewrite run_ret.
  by rewrite <- app_assoc.
Qed.

(** Either every member is accepted, or there is a first one that is
    rejected. *)
Lemma first_rejection ms cs n :
  length cs * n = length ms →
  accepted_upto ms cs n (length ms) ∨
  ∃ q, q < length ms ∧ accepted_upto ms cs n q ∧ rejected_at ms cs n q.
Proof.
  intros Hlen.
  assert (H : ∀ d k, k + d = length ms → accepted_upto ms cs n k →
            accepted_upto ms cs n (length ms) ∨
            ∃ q, q < length ms ∧ accepted_upto ms cs n q ∧ rejected_at ms cs n q).
  { induction d as [|d IH]; intros k Hk Hacc.
    - left. by replace (length ms) with k by lia.
    - assert (Hlt : k < length ms) by lia.
      destruct (lookup_lt_is_Some_2 ms k Hlt) as [e He].
      assert (Hdiv : k / n < length cs).
      { apply Nat.Div0.div_lt_upper_bound. lia. }
      destruct (lookup_lt_is_Some_2 cs _ Hdiv) as [c Hc].
      destruct (check_compatible c e (as_mars c) (as_mars e)) as [err|] eqn:Hchk.
      { right. exists k. split; [done|]. split; [done|].
        exists e, c. split; [done|]. split; [done|]. left. by rewrite Hchk. }
      destruct (decide (canon e ∈ canon <$> take k ms)) as [Hin|Hnin].
      { right. exists k. split; [done|]. split; [done|].
        exists e, c. split; [done|]. split; [done|]. by right. }
      apply (IH (S k)); [lia|].
      destruct Hacc as [Hcompat Hnd]. split.
      + intros p e' c' Hp He' Hc'.
        destruct (decide (p = k)) as [->|Hne].
        * unfold compatible. congruence.
        * apply (Hcompat p e' c'); [lia|done|done].
      + rewrite (take_S_r _ _ _ He), fmap_app. apply NoDup_app.
        split; [done|]. split; [|apply NoDup_singleton].
        intros x Hx Hx'. apply list_elem_of_singleton in Hx'. by subst x. }
  apply (H (length ms) 0); [lia|]. split.
  - intros p e c Hp. lia.
  - simpl. constructor.
Qed.

Lemma perturbations_cases tmp members center clip output :
  run_case tmp members center clip output
    (perturbations tmp members center clip output initial).1
    (trace (perturbations tmp members center clip output initial).2).
Proof.
  destruct (decide (VNone ∈ unique_values "number" members)) as [Hin|Hnone].
  { pose proof Hin as Hin'. apply elem_of_unique_values in Hin'.
    rewrite (unset_number_run tmp members center clip output Hin').
    by constructor. }
  destruct (decide (length center * length (unique_values "number" members)
                    = length members)) as [Hlen|Hlen].
  2:{ rewrite (count_mismatch_run tmp members center clip output Hnone Hlen).
      by constructor. }
  set (n := length (unique_values "number" members)) in *.
  set (ms := order_by keys members). set (cs := order_by keys center).
  assert (Hlen' : length cs * n = length ms)
    by (unfold cs, ms; by rewrite !order_by_length).
  rewrite perturbations_unfold by done. fold n ms cs. rewrite run_bind.
  destruct (first_rejection ms cs n Hlen') as [Hacc|(q & Hq & Hacc & Hrej)].
  - destruct Hacc as [Hcompat Hnd]. rewrite firstn_all in Hnd.
    assert (Hvalid : valid_input members center).
    { repeat split; try done.
      fold ms in Hnd. unfold ms in Hnd. by rewrite order_by_Permutation in Hnd. }
    pose proof (center_loop_trace ms cs n clip Hlen' (length ms)) as Hloop.
    specialize (Hloop ltac:(lia) Hcompat ltac:(by rewrite firstn_all) ltac:(lia)).
    specialize (Hloop (trace (loop_start tmp members center output))
                  (loop_start tmp members center output) (conj eq_refl eq_refl)).
    destruct (for_enum _ _ _ _) as [[[]|err] st1]; [|lia].
    destruct Hloop as (_ & HT & Hseen).
    assert (HW : writes (trace st1) = all_writes clip ms n 0 cs).
    { rewrite HT, writes_app, writes_loop_start, writes_loop_trace. done. }
    rewrite finalize_trace_run.
    + cbn [fst snd trace].
      rewrite HW, HT, <- app_assoc. by apply run_returns.
    + rewrite Hseen, size_list_to_set; [by rewrite length_fmap|done].
    + rewrite HW, (all_writes_length ms cs n clip Hlen') by lia. simpl. lia.
  - destruct Hacc as [Hcompat Hnd].
    pose proof (center_loop_trace ms cs n clip Hlen' q) as Hloop.
    specialize (Hloop ltac:(lia) Hcompat Hnd ltac:(done)).
    specialize (Hloop (trace (loop_start tmp members center output))
                  (loop_start tmp members center output) (conj eq_refl eq_refl)).
    destruct (for_enum _ _ _ _) as [[[]|err] st1].
    { destruct Hloop as (Hqeq & _). lia. }
    destruct Hloop as (_ & e & c & He & Hc & -> & HT).
    destruct Hrej as (e' & c' & He' & Hc' & Hrej).
    assert (e' = e) as -> by congruence. assert (c' = c) as -> by congruence.
    cbn [fst snd]. rewrite HT.
    by apply (run_rejected tmp members center clip output q e c).
Qed.

Lemma grid_event_block_trace clip c es : Forall grid_event (block_trace clip c es).
Proof.
  unfold block_trace. apply Forall_cons. split; [done|].
  apply Forall_app. split; apply Forall_fmap, Forall_forall; by intros.
Qed.

Lemma grid_event_loop_trace clip ms n i cs : Forall grid_event (loop_trace clip ms n i cs).
Proof.
  revert i. induction cs as [|c cs IH]; intros i; cbn [loop_trace]; [constructor|].
  apply Forall_app. split; [apply grid_event_block_trace | apply IH].
Qed.

Lemma grid_event_stopped_trace clip ms cs n q c e :
  Forall grid_event (stopped_trace clip ms cs n q c e).
Proof.
  unfold stopped_trace. apply Forall_app. split; [apply grid_event_loop_trace|].
  apply Forall_cons. split; [done|]. apply Forall_app. split.
  - apply Forall_fmap, Forall_forall. by intros.
  - unfold rejected_read. destruct (check_compatible _ _ _ _); by repeat constructor.
Qed.


(** ** Acceptance and rejection *)






(** ** What the run does to the sink *)


Lemma writes_stopped_trace clip ms cs n q c e :
  writes (stopped_trace clip ms cs n q c e) = all_writes clip ms n 0 (take (q / n) cs).
Proof.
  unfold stopped_trace. rewrite writes_app, writes_loop_trace.
  change (EvToNumpy c :: ?l) with ([EvToNumpy c] ++ l).
  rewrite !writes_app, writes_reads_events.
  assert (Hrr : writes (rejected_read c e) = []).
  { unfold rejected_read. by destruct (check_compatible _ _ _ _). }
  rewrite Hrr. simpl. by rewrite app_nil_r.
Qed.

Lemma log_trace_events ev members center a b c' ms cs :
  (∀ f, ev ≠ EvLogErrorMember f) → (∀ f, ev ≠ EvLogErrorCenter f) →
  ev ∈ ordering_trace members center ++
       EvLogErrorCounts a b c' :: map EvLogErrorMember ms ++ map EvLogErrorCenter cs →
  ev ∈ ordering_trace members center ∨ ev = EvLogErrorCounts a b c'.
Proof.
  intros Hm Hc Hin. apply elem_of_app in Hin as [Hin|Hin]; [by left|].
  apply elem_of_cons in Hin as [Hin|Hin]; [by right|].
  apply elem_of_app in Hin as [Hin|Hin];
    apply list_elem_of_fmap in Hin as (f & -> & _); first [by destruct (Hm f) | by destruct (Hc f)].
Qed.


(** X5. With an explicit output path [p], no run creates a temporary file
    or reopens anything, and the only sink it opens is [p]. *)
Theorem explicit_output_only tmp members center clip p :
  let tr := trace (perturbations tmp members center clip (Some p) initial).2 in
  (∀ path, EvTempFile path ∉ tr) ∧
  (∀ path, EvLoadSource path ∉ tr) ∧
  (∀ path, EvNewOutput path ∈ tr → path = p).
Proof.
  intros tr. unfold tr. clear tr.
  pose proof (perturbations_cases tmp members center clip (Some p)) as Hcase.
  assert (Hord : ∀ ev, ev ∈ ordering_trace members center →
            (∀ path, ev ≠ EvTempFile path) ∧ (∀ path, ev ≠ EvLoadSource path) ∧
            (∀ path, ev ≠ EvNewOutput path)).
  { intros ev H. unfold ordering_trace in H.
    repeat (apply elem_of_cons in H; destruct H as [->|H]; [done|]). by apply elem_of_nil in H. }
  assert (Hstart : ∀ ev, ev ∈ trace (loop_start tmp members center (Some p)) →
            (∀ path, ev ≠ EvTempFile path) ∧ (∀ path, ev ≠ EvLoadSource path) ∧
            (∀ path, ev = EvNewOutput path → path = p)).
  { intros ev H. simpl in H.
    repeat (apply elem_of_cons in H; destruct H as [->|H]; [by repeat split; try congruence|]).
    by apply elem_of_nil in H. }
  assert (Hgrid : ∀ ev l, Forall grid_event l → ev ∈ l →
            (∀ path, ev ≠ EvTempFile path) ∧ (∀ path, ev ≠ EvLoadSource path) ∧
            (∀ path, ev ≠ EvNewOutput path)).
  { intros ev l Hl Hin. rewrite Forall_forall in Hl. specialize (Hl ev Hin).
    by destruct ev. }
  destruct Hcase as [Hin|Hnone Hlen|q e c Hnone Hlen Hacc He Hc Hrej|Hvalid].
  - repeat split; intros path H; by apply elem_of_nil in H.
  - repeat split; intros path H;
      (apply log_trace_events in H as [H|H]; [|discriminate|done|done]);
      apply Hord in H as (H1 & H2 & H3); first [by destruct (H1 path) | by destruct (H2 path) | by destruct (H3 path)].
  - repeat split; intros path H; apply elem_of_app in H as [H|H];
      try (apply Hstart in H as (H1 & H2 & H3);
           first [by destruct (H1 path) | by destruct (H2 path) | by apply H3]);
      apply (Hgrid _ _ (grid_event_stopped_trace _ _ _ _ _ _ _)) in H as (H1 & H2 & H3);
      first [by destruct (H1 path) | by destruct (H2 path) | by destruct (H3 path)].
  - repeat split; intros path H; apply elem_of_app in H as [H|H];
      try (apply Hstart in H as (H1 & H2 & H3);
           first [by destruct (H1 path) | by destruct (H2 path) | by apply H3]);
      (apply elem_of_app in H as [H|H];
       [apply (Hgrid _ _ (grid_event_loop_trace _ _ _ _ _)) in H as (H1 & H2 & H3);
        first [by destruct (H1 path) | by destruct (H2 path) | by destruct (H3 path)]
       |simpl in H; apply list_elem_of_singleton in H; discriminate]).
Qed.

(** X6. The sink only ever holds whole blocks: after any run, returned or
    raised, the number of arrays written is [b * n_numbers] for some number
    [b] of center fields. *)
Theorem writes_in_whole_blocks tmp members center clip output :
  ∃ b, b ≤ length center ∧
       length (writes (trace (perturbations tmp members center clip output initial).2)) =
       b * length (unique_values "number" members).
Proof.
  pose proof (perturbations_cases tmp members center clip output) as Hcase.
  destruct Hcase as [Hin|Hnone Hlen|q e c Hnone Hlen Hacc He Hc Hrej|Hvalid].
  - exists 0. split; [lia|done].
  - exists 0. split; [lia|].
    rewrite writes_app. change (EvLogErrorCounts ?a ?b ?c :: ?l) with ([EvLogErrorCounts a b c] ++ l).
    rewrite !writes_app, writes_log_members, writes_log_center. done.
  - assert (Hlen' : length (order_by keys center) * length (unique_values "number" members)
                    = length (order_by keys members)) by (by rewrite !order_by_length).
    pose proof (lookup_lt_Some _ _ _ Hc) as Hdiv. rewrite order_by_length in Hdiv.
    exists (q / length (unique_values "number" members)). split; [lia|].
    rewrite writes_app, writes_loop_start, writes_stopped_trace. simpl.
    rewrite (all_writes_length _ _ _ clip Hlen'), length_take.
    + rewrite order_by_length. f_equal. lia.
    + rewrite length_take, order_by_length. simpl. lia.
  - pose proof (valid_input_length _ _ Hvalid) as Hlen'.
    exists (length center). split; [lia|].
    rewrite !writes_app, writes_loop_start, writes_loop_trace.
    assert (Hfin : writes (finalize_trace tmp output) = []) by (by destruct output).
    rewrite Hfin, app_nil_r. simpl.
    rewrite (all_writes_length _ _ _ clip Hlen') by (simpl; lia).
    by rewrite order_by_length.
Qed.

(** ** The fields written *)





(** X8. On valid input with well-formed grids, every array written has the
    shape of its template's grid and as many cells as that shape says,
    clipped or not. *)
Theorem output_shapes tmp members center clip output :
  valid_input members center →
  Forall field_wf members → Forall field_wf center →
  ∃ r st,
    perturbations tmp members center clip output initial = (Return r, st) ∧
    Forall (λ xt : ndarray * Field, nd_shape xt.1 = shape xt.2 ∧ nd_wf xt.1)
      (writes (trace st)).
Proof.
  intros Hvalid Hwfm Hwfc.
  pose proof (valid_input_length _ _ Hvalid) as Hlen.
  destruct (valid_input_run tmp members center clip output Hvalid)
    as (st & Hrun & HW & _).
  eexists _, st. split; [exact Hrun|].
  set (n := length (unique_values "number" members)) in *.
  set (ms := order_by keys members) in *. set (cs := order_by keys center) in *.
  apply Forall_lookup. intros p [x e] Hp.
  assert (Hplt : p < length cs * n).
  { apply lookup_lt_Some in Hp. rewrite HW in Hp.
    rewrite (all_writes_length ms cs n clip Hlen) in Hp by (simpl; lia). done. }
  assert (Hn : n ≠ 0) by (intros Hz; rewrite Hz in Hplt; lia).
  assert (Hi : p / n < length cs) by (apply Nat.Div0.div_lt_upper_bound; lia).
  destruct (lookup_lt_is_Some_2 cs _ Hi) as [c Hc].
  destruct (valid_input_block tmp members center clip output (p / n) c Hvalid Hwfm Hwfc Hc)
    as (r' & st' & Hrun' & Hblock & Hblen & Hwf & Hes).
  fold n ms cs in Hblock, Hblen, Hes.
  assert (st' = st) as -> by congruence.
  assert (Hj : p `mod` n < n) by (apply Nat.mod_upper_bound; lia).
  assert (Hpq : p / n * n + p `mod` n = p).
  { pose proof (Nat.div_mod_eq p n). lia. }
  rewrite <- Hpq, <- (take_drop_lookup _ _ n) in Hp by done.
  rewrite Hblock in Hp. unfold block_writes in Hp.
  rewrite list_lookup_fmap in Hp.
  destruct (block ms n (p / n) !! (p `mod` n)) as [e'|] eqn:He'; [|done].
  simpl in Hp. injection Hp as <- <-.
  assert (Hmem : e' ∈ block ms n (p / n)) by (by eapply list_elem_of_lookup_2).
  pose proof (recenter_length clip c _ Hwf Hes e' Hmem) as Hxl.
  simpl. rewrite recenter_shape. split.
  - pose proof (Hes e' Hmem) as Hel. destruct Hvalid as (_ & _ & _ & Hcompat).
    apply elem_of_block in Hmem as (j & Hjn & Hms).
    symmetry. apply compatible_shape.
    apply (Hcompat (p / n * n + j) e' c); [by eapply lookup_lt_Some | done |].
    rewrite Nat.add_comm, Nat.div_add by lia. by rewrite Nat.div_small.
  - unfold nd_wf. by rewrite recenter_shape.
Qed.

Lemma output_shapes_witness :
  ∃ r st,
    perturbations "tmp" (sample_members "tp") (sample_center "tp") CLIP_VARIABLES
      None initial = (Return r, st) ∧
    Forall (λ xt : ndarray * Field, nd_shape xt.1 = shape xt.2 ∧ nd_wf xt.1)
      (writes (trace st)).
Proof.
  apply (output_shapes "tmp" (sample_members "tp") (sample_center "tp")
           CLIP_VARIABLES None).
  - apply valid_inputb_sound. vm_compute. reflexivity.
  - repeat constructor.
  - repeat constructor.
Defined.

(** ** More on the values written *)





Section clipped_block.
Variable clip_variables : list string.
Variable c : Field.
Variable es : list Field.
Hypothesis Hc : field_wf c.
Hypothesis Hes : ∀ e, e ∈ es → length (nd_data (to_numpy e)) = nd_size (shape c).
Hypothesis Hclip : value_in (get_metadata c "param") clip_variables = true.


End clipped_block.







(** ** More on the compatibility check *)

(** X12. Passing [check_compatible] is an equivalence between fields with
    their key sets: a field passes against itself, the check does not depend
    on which field is called the center, and two fields that pass against a
    third pass against each other. *)
Theorem check_compatible_equivalence :
  (∀ f m, check_compatible f f m m = None) ∧
  (∀ f1 f2 m1 m2,
     check_compatible f1 f2 m1 m2 = None → check_compatible f2 f1 m2 m1 = None) ∧
  (∀ f1 f2 f3 m1 m2 m3,
     check_compatible f1 f2 m1 m2 = None → check_compatible f2 f3 m2 m3 = None →
     check_compatible f1 f3 m1 m3 = None).
Proof.
  split; [|split].
  - intros f m. apply check_compatible_None. by repeat split.
  - intros f1 f2 m1 m2. rewrite !check_compatible_None.
    intros [(Hg & Ha & Hs & Hv) Hk]. repeat split; try done.
    intros k Hn. symmetry. by apply Hk.
  - intros f1 f2 f3 m1 m2 m3. rewrite !check_compatible_None.
    intros [(Hg & Ha & Hs & Hv) Hk] [(Hg' & Ha' & Hs' & Hv') Hk'].
    repeat split; try congruence.
    intros k Hn. rewrite (Hk k Hn). by apply Hk'.
Qed.

(** X13. The keys of [SKIP] play no part in the outcome: binding such a
    key to any value in either key set does not change whether
    [check_compatible] passes. *)
Theorem check_compatible_ignores_skipped k v1 v2 f1 f2 cm em :
  k ∈ SKIP →
  (check_compatible f1 f2 (<[k := v1]> cm) (<[k := v2]> em) = None ↔
   check_compatible f1 f2 cm em = None).
Proof.
  intros Hk. rewrite !check_compatible_None.
  assert (H : keys_agree (<[k := v1]> cm) (<[k := v2]> em) ↔ keys_agree cm em).
  { unfold keys_agree. split; intros H k' Hn; specialize (H k' Hn);
      assert (k ≠ k') by (intros ->; done).
    - by rewrite !lookup_insert_ne in H.
    - by rewrite !lookup_insert_ne. }
  by rewrite H.
Qed.

Lemma check_compatible_ignores_skipped_witness :
  let c := sample_field "t" 500 None [0; 0]%Q in
  let e := sample_field "t" 500 (Some 1%Z) [1; 2]%Q in
  "number" ∈ SKIP ∧
  (check_compatible c e (<["number" := VInt 7]> (as_mars c))
     (<["number" := VInt 9]> (as_mars e)) = None ↔
   check_compatible c e (as_mars c) (as_mars e) = None).
Proof.
  intros c e.
  assert (H : "number" ∈ SKIP) by (apply (bool_decide_unpack _); vm_compute; exact I).
  split; [exact H|].
  exact (check_compatible_ignores_skipped "number" (VInt 7) (VInt 9) c e
           (as_mars c) (as_mars e) H).
Defined.

(** ** Duplicates and key sets *)

Lemma insert_item_Permutation kv l : insert_item kv l ≡ₚ kv :: l.
Proof.
  induction l as [|kv' l IH]; simpl; [done|].
  destruct (String.leb kv.1 kv'.1); [done|].
  rewrite IH. apply Permutation_swap.
Qed.

Lemma sorted_items_Permutation d : sorted_items d ≡ₚ map_to_list d.
Proof.
  unfold sorted_items. induction (map_to_list d) as [|kv l IH]; simpl; [done|].
  rewrite insert_item_Permutation. by rewrite IH.
Qed.

(** The canonical key set determines the dictionary. *)
Lemma canon_inj e1 e2 : canon e1 = canon e2 → as_mars e1 = as_mars e2.
Proof.
  unfold canon. intros Heq. apply map_to_list_inj.
  by rewrite <- !sorted_items_Permutation, Heq.
Qed.

(** X14. The duplicate assertion is raised only for a genuine repetition:
    when [perturbations] raises it with the tuple [t], two ordered members
    at different positions have the same [as_mars] dictionary, of which [t]
    is the sorted tuple. *)
Theorem duplicate_error_is_genuine tmp members center clip output t :
  (perturbations tmp members center clip output initial).1 =
    Raise (AssertionError (ADuplicate t)) →
  ∃ p1 p2 e1 e2,
    p1 < p2 ∧
    order_by keys members !! p1 = Some e1 ∧ order_by keys members !! p2 = Some e2 ∧
    as_mars e1 = as_mars e2 ∧ t = sorted_items (as_mars e2).
Proof.
  intros Hrun.
  pose proof (perturbations_cases tmp members center clip output) as Hcase.
  rewrite Hrun in Hcase.
  inversion Hcase as [| |q e c Hnone Hlen Hacc He Hc Hrej Herr|]; subst.
  unfold member_error in Herr.
  destruct (check_compatible c e (as_mars c) (as_mars e)) as [err|] eqn:Hchk.
  { apply check_compatible_Some in Hchk. subst err. inversion Hchk. }
  injection Herr as <-.
  destruct Hrej as [Hrej|Hrej]; [done|].
  apply list_elem_of_fmap in Hrej as (e1 & Hcan & Hin).
  apply elem_of_take in Hin as (p1 & He1 & Hlt).
  exists p1, q, e1, e. repeat split; try done.
  by apply canon_inj.
Qed.

Lemma duplicate_error_is_genuine_witness :
  let e := sample_field "t" 500 (Some 1%Z) [1; 2]%Q in
  let members := [e; e] in
  let center := sample_center "t" ++ sample_center "t" in
  ∃ p1 p2 e1 e2,
    p1 < p2 ∧
    order_by keys members !! p1 = Some e1 ∧ order_by keys members !! p2 = Some e2 ∧
    as_mars e1 = as_mars e2 ∧ canon e = sorted_items (as_mars e2).
Proof.
  intros e members center.
  apply (duplicate_error_is_genuine "tmp" members center CLIP_VARIABLES None (canon e)).
  vm_compute. reflexivity.
Defined.

(** X15. Two members with the same [as_mars] dictionary are never
    accepted: whatever the rest of the input, [perturbations] raises. *)
Theorem same_mars_keys_never_accepted tmp members center clip output p1 p2 e1 e2 :
  members !! p1 = Some e1 → members !! p2 = Some e2 → p1 ≠ p2 →
  as_mars e1 = as_mars e2 →
  ∃ err, (perturbations tmp members center clip output initial).1 = Raise err.
Proof.
  intros He1 He2 Hne Hmars.
  destruct (perturbations tmp members center clip output initial) as [[r|err] st] eqn:Hrun;
    [|by eexists].
  assert (Hvalid : valid_input members center).
  { pose proof (perturbations_cases tmp members center clip output) as Hcase.
    rewrite Hrun in Hcase. simpl in Hcase. by inversion Hcase. }
  destruct Hvalid as (_ & _ & Hnd & _).
  exfalso. apply Hne.
  apply (NoDup_lookup (canon <$> members) p1 p2 (canon e1) Hnd).
  - by rewrite list_lookup_fmap, He1.
  - rewrite list_lookup_fmap, He2. unfold canon. by rewrite Hmars.
Qed.

Lemma same_mars_keys_never_accepted_witness :
  let e := sample_field "t" 500 (Some 1%Z) [1; 2]%Q in
  ∃ err, (perturbations "tmp" [e; e] (sample_center "t") CLIP_VARIABLES None initial).1 =
           Raise err.
Proof.
  intros e.
  apply (same_mars_keys_never_accepted "tmp" [e; e] (sample_center "t") CLIP_VARIABLES
           None 0 1 e e).
  - reflexivity.
  - reflexivity.
  - lia.
  - reflexivity.
Defined.

(** ** Reads, and the choice of the output *)

Lemma reads_loop_trace_Permutation clip ms (cs : list Field) n i (l : list Field) :
  length cs * n = length ms →
  i + length l ≤ length cs →
  reads (loop_trace clip ms n i l) ≡ₚ l ++ take (length l * n) (drop (i * n) ms).
Proof.
  intros Hlen. revert i. induction l as [|c l IH]; intros i Hi; cbn [loop_trace length].
  - done.
  - simpl in Hi. rewrite reads_app, reads_block_trace, IH by lia.
    unfold block. replace (S i * n) with (i * n + n) by lia.
    rewrite <- drop_drop. replace (S (length l) * n) with (n + length l * n) by lia.
    rewrite <- take_take_drop. simpl. f_equiv.
    rewrite !app_assoc. f_equiv. apply Permutation_app_comm.
Qed.

Lemma accepted_not_rejected ms cs n k q :
  accepted_upto ms cs n k → rejected_at ms cs n q → q < k → False.
Proof.
  intros [Hcompat Hnd] (e & c & He & Hc & Hrej) Hlt.
  destruct Hrej as [Hrej|Hrej].
  - apply Hrej. by apply (Hcompat q e c).
  - assert (Hfresh : canon e ∉ canon <$> take q ms).
    { replace (take q ms) with (take q (take k ms))
        by (rewrite take_take; f_equal; lia).
      rewrite fmap_take. apply NoDup_lookup_not_in_take; [done|].
      rewrite list_lookup_fmap, lookup_take_lt by done. by rewrite He. }
    done.
Qed.

Lemma valid_input_accepted members center :
  valid_input members center →
  accepted_upto (order_by keys members) (order_by keys center)
    (length (unique_values "number" members)) (length (order_by keys members)).
Proof.
  intros (_ & _ & Hnd & Hcompat). split; [done|].
  rewrite firstn_all. by rewrite order_by_Permutation.
Qed.

Lemma valid_input_trace tmp members center clip output :
  valid_input members center →
  trace (perturbations tmp members center clip output initial).2 =
    trace (loop_start tmp members center output) ++
    loop_trace clip (order_by keys members)
      (length (unique_values "number" members)) 0 (order_by keys center) ++
    finalize_trace tmp output.
Proof.
  intros Hvalid.
  pose proof (perturbations_cases tmp members center clip output) as Hcase.
  pose proof (valid_input_accepted _ _ Hvalid) as Hacc'.
  destruct Hvalid as (Hnone' & Hlen' & _ & _).
  destruct Hcase as [Hin|Hnone Hlen|q e c Hnone Hlen Hacc He Hc Hrej|Hvalid];
    [done | lia | | done].
  exfalso. apply (accepted_not_rejected _ _ _ _ q Hacc'); [by exists e, c|].
  by eapply lookup_lt_Some.
Qed.

(** X16. On valid input every input grid is read exactly once: the fields
    whose [to_numpy] is called during the run are, up to order, the center
    fields and the member fields. *)
Theorem each_grid_read_once tmp members center clip output :
  valid_input members center →
  ∃ r st,
    perturbations tmp members center clip output initial = (Return r, st) ∧
    reads (trace st) ≡ₚ center ++ members.
Proof.
  intros Hvalid.
  pose proof (valid_input_length _ _ Hvalid) as Hlen.
  pose proof (valid_input_trace tmp members center clip output Hvalid) as HT.
  destruct (valid_input_run tmp members center clip output Hvalid) as (st & Hrun & _).
  rewrite Hrun in HT. cbn [snd] in HT.
  eexists _, st. split; [exact Hrun|].
  rewrite HT, !reads_app.
  assert (Hstart : reads (trace (loop_start tmp members center output)) = [])
    by (by destruct output).
  assert (Hfin : reads (finalize_trace tmp output) = []) by (by destruct output).
  rewrite Hstart, Hfin, app_nil_r. cbn [app].
  rewrite (reads_loop_trace_Permutation clip _ _ _ 0 _ Hlen) by (simpl; lia).
  rewrite Hlen. simpl. rewrite drop_0, firstn_all.
  by rewrite !order_by_Permutation.
Qed.

Lemma each_grid_read_once_witness :
  ∃ r st,
    perturbations "tmp" (sample_members "t") (sample_center "t") CLIP_VARIABLES
      None initial = (Return r, st) ∧
    reads (trace st) ≡ₚ sample_center "t" ++ sample_members "t".
Proof.
  apply (each_grid_read_once "tmp" (sample_members "t") (sample_center "t")
           CLIP_VARIABLES None).
  apply valid_inputb_sound. vm_compute. reflexivity.
Defined.

